(** * Looping gallery carousel of [src/js/main.js]

    A shallow embedding of [initGallerySlideshow] and of the closures it
    creates ([initializeTrack], [updateTrackPosition], [nextSlide],
    [prevSlide], [restartAutoSlide], the click listeners and the
    [setTimeout] completion callback), together with the small part of the
    browser that the code talks to: the three looked-up elements, the
    timer table behind [setTimeout] / [setInterval] / [clearInterval] and
    a clock in milliseconds. *)

From Stdlib Require Import ZArith List Ascii String Bool Lia DecimalString.
Import ListNotations.

Local Open Scope Z_scope.

#[local] Arguments Z.mul : simpl never.
#[local] Arguments Z.add : simpl never.
#[local] Arguments Z.sub : simpl never.
#[local] Arguments Z.opp : simpl never.

(** ** Browser side *)

(** [String(n)] for an integer [n], as a template literal prints it. *)
Definition string_of_Z (z : Z) : string := NilZero.string_of_int (Z.to_int z).

(** The two functions of the closure that are handed to the timer API. *)
Inductive Callback : Type :=
| CbCompletion   (* the arrow function passed to setTimeout, lines 242-255 *)
| CbNextSlide.   (* nextSlide, passed to setInterval, line 275 *)

(** The two arrow functions registered as click listeners. *)
Inductive Handler : Type :=
| HNextClick     (* () => { nextSlide(); restartAutoSlide(); } *)
| HPrevClick.    (* () => { prevSlide(); restartAutoSlide(); } *)

Inductive ButtonId : Type := BtnPrev | BtnNext.

(** One entry of the browser's table of active timers.  [tm_repeat] is the
    period of a [setInterval] timer and [None] for a [setTimeout] one. *)
Record Timer : Type := mkTimer {
  tm_id : nat;
  tm_due : Z;
  tm_repeat : option Z;
  tm_cb : Callback
}.

Record Img : Type := mkImg {
  src : string;
  alt : string;
  className : string
}.

Record Track : Type := mkTrack {
  children : list Img;
  style_transition : string;
  style_transform : string
}.

Record Button : Type := mkButton { listeners : list Handler }.

(** What [document.getElementById] finds for the three ids the code asks
    for; [None] is JavaScript's [null]. *)
Record Document : Type := mkDocument {
  galleryTrack : option Track;
  galleryPrev : option Button;
  galleryNext : option Button
}.

Record Runtime : Type := mkRuntime {
  clock : Z;
  table : list Timer;
  freshId : nat
}.

(** ** Carousel state

    The closure variables [currentIndex], [autoSlideInterval] and
    [isTransitioning], the captured elements, and the runtime. *)
Record State : Type := mkState {
  currentIndex : Z;
  autoSlideInterval : option nat;
  isTransitioning : bool;
  track : Track;
  prevButton : option Button;
  nextButton : option Button;
  now : Z;
  timers : list Timer;
  nextTimerId : nat
}.

Definition set_currentIndex (i : Z) (s : State) : State :=
  mkState i (autoSlideInterval s) (isTransitioning s) (track s)
          (prevButton s) (nextButton s) (now s) (timers s) (nextTimerId s).

Definition set_autoSlideInterval (h : option nat) (s : State) : State :=
  mkState (currentIndex s) h (isTransitioning s) (track s)
          (prevButton s) (nextButton s) (now s) (timers s) (nextTimerId s).

Definition set_isTransitioning (b : bool) (s : State) : State :=
  mkState (currentIndex s) (autoSlideInterval s) b (track s)
          (prevButton s) (nextButton s) (now s) (timers s) (nextTimerId s).

Definition set_track (tr : Track) (s : State) : State :=
  mkState (currentIndex s) (autoSlideInterval s) (isTransitioning s) tr
          (prevButton s) (nextButton s) (now s) (timers s) (nextTimerId s).

Definition set_prevButton (b : option Button) (s : State) : State :=
  mkState (currentIndex s) (autoSlideInterval s) (isTransitioning s) (track s)
          b (nextButton s) (now s) (timers s) (nextTimerId s).

Definition set_nextButton (b : option Button) (s : State) : State :=
  mkState (currentIndex s) (autoSlideInterval s) (isTransitioning s) (track s)
          (prevButton s) b (now s) (timers s) (nextTimerId s).

Definition set_now (t : Z) (s : State) : State :=
  mkState (currentIndex s) (autoSlideInterval s) (isTransitioning s) (track s)
          (prevButton s) (nextButton s) t (timers s) (nextTimerId s).

Definition set_timers (l : list Timer) (s : State) : State :=
  mkState (currentIndex s) (autoSlideInterval s) (isTransitioning s) (track s)
          (prevButton s) (nextButton s) (now s) l (nextTimerId s).

(** *** Timer API *)

Definition has_id (id : nat) (tm : Timer) : bool := Nat.eqb (tm_id tm) id.

(** Registers a timer under the next free handle and returns the handle. *)
Definition register (cb : Callback) (delay : Z) (rep : option Z) (s : State)
  : nat * State :=
  let id := nextTimerId s in
  (id, mkState (currentIndex s) (autoSlideInterval s) (isTransitioning s)
               (track s) (prevButton s) (nextButton s) (now s)
               (timers s ++ [mkTimer id (now s + delay) rep cb])%list (S id)).

Definition setTimeout (cb : Callback) (delay : Z) (s : State) : State :=
  snd (register cb delay None s).

Definition setInterval (cb : Callback) (period : Z) (s : State) : nat * State :=
  register cb period (Some period) s.

(** Takes the timer with handle [id] out of the table. *)
Definition unregister (id : nat) (s : State) : State :=
  set_timers (filter (fun tm => negb (has_id id tm)) (timers s)) s.

(** [clearInterval(undefined)] does nothing. *)
Definition clearInterval (h : option nat) (s : State) : State :=
  match h with
  | None => s
  | Some id => unregister id s
  end.

Definition addEventListener (h : Handler) (b : Button) : Button :=
  mkButton (listeners b ++ [h])%list.

(** ** The closures of [initGallerySlideshow] *)

Definition smooth : string := "transform 1.2s cubic-bezier(0.4, 0, 0.2, 1)".

Definition translateX_css (pct : Z) : string :=
  ("translateX(" ++ string_of_Z pct ++ "%)")%string.

Fixpoint forEach_index {A B : Type} (f : A -> nat -> B) (l : list A) (index : nat)
  : list B :=
  match l with
  | [] => []
  | a :: l' => f a index :: forEach_index f l' (S index)
  end.

(** ** JavaScript strings

    The string methods the page's loader uses, on strings whose code
    units are below 256. *)
Module JsString.

Definition code (c : ascii) : nat := nat_of_ascii c.

(** [\d] *)
Definition is_digit (c : ascii) : bool :=
  Nat.leb 48 (code c) && Nat.leb (code c) 57.

(** [\s], and the white space that [trim] removes: tab, line feed,
    vertical tab, form feed, carriage return, space, no-break space. *)
Definition is_space (c : ascii) : bool :=
  (Nat.leb 9 (code c) && Nat.leb (code c) 13)
  || Nat.eqb (code c) 32 || Nat.eqb (code c) 160.

(** [s.replace(/\D/g, '')] *)
Fixpoint replace_non_digits (s : string) : string :=
  match s with
  | EmptyString => EmptyString
  | String c r =>
      if is_digit c then String c (replace_non_digits r)
      else replace_non_digits r
  end.

Fixpoint trimStart (s : string) : string :=
  match s with
  | EmptyString => EmptyString
  | String c r => if is_space c then trimStart r else s
  end.

Fixpoint trimEnd (s : string) : string :=
  match s with
  | EmptyString => EmptyString
  | String c r =>
      match trimEnd r with
      | EmptyString => if is_space c then EmptyString else String c EmptyString
      | r' => String c r'
      end
  end.

Definition trim (s : string) : string := trimEnd (trimStart s).

(** Upper case letters are A-Z and, above 127, the codes 192-222
    without 215. *)
Definition lower (c : ascii) : ascii :=
  if (Nat.leb 65 (code c) && Nat.leb (code c) 90)
     || (Nat.leb 192 (code c) && Nat.leb (code c) 222
         && negb (Nat.eqb (code c) 215))
  then ascii_of_nat (code c + 32) else c.

Fixpoint toLowerCase (s : string) : string :=
  match s with
  | EmptyString => EmptyString
  | String c r => String (lower c) (toLowerCase r)
  end.

Fixpoint includes (sub s : string) : bool :=
  prefix sub s
  || match s with
     | EmptyString => false
     | String _ r => includes sub r
     end.

Fixpoint drop (n : nat) (s : string) : string :=
  match n, s with
  | O, _ => s
  | S n', String _ r => drop n' r
  | S _, EmptyString => EmptyString
  end.

(** [s.split(sep)] for a separator that is not empty.  [skip] counts the
    characters of a separator just found that are still to pass over;
    [cur] is the piece being read. *)
Fixpoint split_from (sep s : string) (skip : nat) (cur : string) : list string :=
  match s with
  | EmptyString => [cur]
  | String c r =>
      match skip with
      | S k => split_from sep r k cur
      | O =>
          if prefix sep s
          then cur :: split_from sep r (String.length sep - 1) EmptyString
          else split_from sep r 0 (cur ++ String c EmptyString)%string
      end
  end.

Definition split (sep s : string) : list string :=
  split_from sep s 0 EmptyString.

(** The regular expression [/\(?\d{3}\)?\s*000[-\s]?0000/].  After each
    optional or starred part the next part cannot start with a character
    that part accepts, so taking the part whenever it is there is the only
    way to match. *)
Definition optional (p : ascii -> bool) (s : string) : string :=
  match s with
  | String c r => if p c then r else s
  | EmptyString => s
  end.

Definition three_digits (s : string) : option string :=
  match s with
  | String a (String b (String c r)) =>
      if is_digit a && is_digit b && is_digit c then Some r else None
  | _ => None
  end.

Definition literal (lit s : string) : option string :=
  if prefix lit s then Some (drop (String.length lit) s) else None.

Definition placeholder_at (s : string) : bool :=
  match three_digits (optional (Ascii.eqb "(") s) with
  | None => false
  | Some s1 =>
      match literal "000" (trimStart (optional (Ascii.eqb ")") s1)) with
      | None => false
      | Some s2 =>
          prefix "0000"
                 (optional (fun c => Ascii.eqb c "-" || is_space c) s2)
      end
  end.

(** [s.match(...)] finds the expression at some position of [s]. *)
Fixpoint placeholder_match (s : string) : bool :=
  placeholder_at s
  || match s with
     | EmptyString => false
     | String _ r => placeholder_match r
     end.

End JsString.

(** ** The business information loader

    The parsed [info.json] is typed: an object is a record whose members
    may be missing, a text member is a string or missing.  The page is the
    elements the loader looks up, each kind on its own: the elements found
    by different selectors are taken to be different elements that do not
    contain one another. *)
Module BusinessInfo.
Import JsString.

(** A missing member reads as [undefined]. *)
Definition truthy (v : option string) : bool :=
  match v with
  | Some (String _ _) => true
  | _ => false
  end.

(** The text of [v] inside a template literal. *)
Definition show (v : option string) : string :=
  match v with
  | Some text => text
  | None => "undefined"
  end.

(** [hours[key]] *)
Definition Hours : Type := string -> option string.

Record Phone : Type := mkPhone { phone_primary : option string }.
Record Email : Type := mkEmail { email_primary : option string }.
Record Address : Type := mkAddress {
  fullAddress : option string;
  street : option string;
  city : option string;
  state : option string;
  zipCode : option string
}.
Record Contact : Type := mkContact {
  phone : option Phone;
  email : option Email;
  address : option Address
}.
Record Service : Type := mkService {
  serviceArea : option (list string);
  hours : option Hours
}.
Record Info : Type := mkInfo {
  contact : option Contact;
  service : option Service
}.

(** *** Elements *)

Record PhoneElement : Type := mkPhoneElement {
  tagName : string;
  href : option string;
  textContent : string
}.

#[local] Set Warnings "-register-all".
Inductive Node : Type :=
| Elem (tag className text : string) (childNodes : list Node).
#[local] Set Warnings "register-all".

Record AreaElement : Type := mkAreaElement {
  area_classList : list string;
  area_children : list Node
}.

Record Link : Type := mkLink {
  link_href : option string;
  link_textContent : string
}.

(** The [data-email-display] element, with the [data-email-link] element
    inside it if there is one. *)
Record EmailElement : Type := mkEmailElement { emailLink : option Link }.

(** The [data-address-display] element, with the text of the
    [.contact-address] element inside it if there is one. *)
Record AddressElement : Type := mkAddressElement { addressText : option string }.

(** What the hours element holds: markup assigned through [innerHTML], or
    an appended [div]. *)
Inductive HoursChild : Type :=
| Markup (html : string)
| Div (className innerHTML : string).

Record HoursElement : Type := mkHoursElement {
  hours_classList : list string;
  hours_children : list HoursChild
}.

Definition contains (classList : list string) (token : string) : bool :=
  existsb (String.eqb token) classList.

(** *** updatePhoneNumbers, lines 34-67 *)

Definition isPhonePlaceholder (currentText : string) : bool :=
  placeholder_match currentText || includes "000-0000" currentText.

Definition isActionButton (currentText : string) : bool :=
  negb (isPhonePlaceholder currentText)
  && (includes "call" (toLowerCase currentText)
      || includes "phone" (toLowerCase currentText)
      || includes "contact" (toLowerCase currentText)).

Definition updatePhoneElement (phoneNumber : string) (element : PhoneElement)
  : PhoneElement :=
  let phoneDigits := replace_non_digits phoneNumber in
  let telLink := ("tel:" ++ phoneDigits)%string in
  let element :=
    if String.eqb (tagName element) "A"
    then mkPhoneElement (tagName element) (Some telLink) (textContent element)
    else element in
  let currentText := trim (textContent element) in
  if isPhonePlaceholder currentText && negb (isActionButton currentText)
  then mkPhoneElement (tagName element) (href element) phoneNumber
  else element.

Definition updatePhoneNumbers (phoneNumber : string)
           (phoneElements : list PhoneElement) : list PhoneElement :=
  map (updatePhoneElement phoneNumber) phoneElements.

(** *** updateServiceArea, lines 73-106 *)

Definition areaItem (isFooter : bool) (area : string) : Node :=
  if isFooter
  then Elem "li" "" "" [Elem "span" "service-area-item" area []]
  else Elem "span" "service-area-item" area [].

Definition updateServiceAreaElement (serviceAreas : list string)
           (serviceAreaElement : AreaElement) : AreaElement :=
  let isFooter :=
    contains (area_classList serviceAreaElement) "footer-service-areas" in
  mkAreaElement
    (area_classList serviceAreaElement)
    (fold_left (fun kids area => kids ++ [areaItem isFooter area])
               serviceAreas []).

Definition updateServiceArea (serviceAreas : list string)
           (serviceAreaElements : list AreaElement) : list AreaElement :=
  match serviceAreaElements with
  | [] => serviceAreaElements
  | _ => map (updateServiceAreaElement serviceAreas) serviceAreaElements
  end.

(** *** updateContactInfo, lines 109-130 *)

Definition updateEmail (info : Info) (emailElement : option EmailElement)
  : option EmailElement :=
  match emailElement, contact info with
  | Some el, Some c =>
      match email c with
      | Some e =>
          match emailLink el with
          | Some _ =>
              if truthy (email_primary e)
              then Some (mkEmailElement
                           (Some (mkLink
                                    (Some ("mailto:" ++ show (email_primary e))%string)
                                    (show (email_primary e)))))
              else emailElement
          | None => emailElement
          end
      | None => emailElement
      end
  | _, _ => emailElement
  end.

Definition addressLine (a : Address) : string :=
  if truthy (fullAddress a) then show (fullAddress a)
  else (show (street a) ++ ", " ++ show (city a) ++ ", "
        ++ show (state a) ++ " " ++ show (zipCode a))%string.

Definition updateAddress (info : Info) (addressElement : option AddressElement)
  : option AddressElement :=
  match addressElement, contact info with
  | Some el, Some c =>
      match address c with
      | Some a =>
          match addressText el with
          | Some _ => Some (mkAddressElement (Some (addressLine a)))
          | None => addressElement
          end
      | None => addressElement
      end
  | _, _ => addressElement
  end.

(** *** updateBusinessHours, lines 133-182 *)

Definition days : list (string * string) :=
  [ ("monday", "Monday"); ("tuesday", "Tuesday"); ("wednesday", "Wednesday");
    ("thursday", "Thursday"); ("friday", "Friday"); ("saturday", "Saturday");
    ("sunday", "Sunday") ]%string.

Definition hourItem (label value : string) : HoursChild :=
  Div "hours-item"
      ("<strong>" ++ label ++ "</strong><span>" ++ value ++ "</span>")%string.

Definition appendDay (hours : Hours) (kids : list HoursChild)
           (day : string * string) : list HoursChild :=
  if truthy (hours (fst day))
  then kids ++ [hourItem (snd day) (show (hours (fst day)))]
  else kids.

Definition updateBusinessHours (hours : Hours)
           (hoursElement : option HoursElement) : option HoursElement :=
  match hoursElement with
  | None => None
  | Some el =>
      if contains (hours_classList el) "contact-hours-simple" then
        if truthy (hours "monday"%string) && truthy (hours "saturday"%string)
        then
          let monTime := nth_error (split " - " (show (hours "monday"%string))) 0 in
          let satTime := nth_error (split " - " (show (hours "saturday"%string))) 1 in
          Some (mkHoursElement
                  (hours_classList el)
                  [Markup ("Mon-Sat " ++ show monTime ++ " - " ++ show satTime
                           ++ "<br>Sun Closed")%string])
        else hoursElement
      else
        let kids := fold_left (appendDay hours) days [] in
        let kids :=
          if truthy (hours "emergency"%string)
          then kids ++ [hourItem "Emergency" (show (hours "emergency"%string))]
          else kids in
        Some (mkHoursElement (hours_classList el) kids)
  end.

(** *** loadBusinessInfo, lines 2-31 *)

(** What the [catch] block can be handed: the rejected [fetch], the
    [Error] thrown for a response that is not ok, the rejected [json()],
    and the [TypeError] of reading a member of [undefined]. *)
Inductive Failure : Type :=
| FetchRejected
| FailedToLoad
| InvalidJson
| TypeError.

Inductive Fetched : Type :=
| Rejected
| Response (ok : bool) (json : option Info).

Record Page : Type := mkPage {
  phoneElements : list PhoneElement;
  serviceAreaElements : list AreaElement;
  emailElement : option EmailElement;
  addressElement : option AddressElement;
  hoursElement : option HoursElement;
  console : list Failure
}.

Definition consoleError (e : Failure) (p : Page) : Page :=
  mkPage (phoneElements p) (serviceAreaElements p) (emailElement p)
         (addressElement p) (hoursElement p) (console p ++ [e]).

Definition updateContactInfo (info : Info) (p : Page) : Page :=
  mkPage (phoneElements p) (serviceAreaElements p)
         (updateEmail info (emailElement p))
         (updateAddress info (addressElement p))
         (hoursElement p) (console p).

Definition loadBusinessInfo (response : Fetched) (p : Page) : Page :=
  match response with
  | Rejected => consoleError FetchRejected p
  | Response false _ => consoleError FailedToLoad p
  | Response true None => consoleError InvalidJson p
  | Response true (Some info) =>
      match contact info with
      | None => consoleError TypeError p
      | Some c =>
          match phone c with
          | None => consoleError TypeError p
          | Some ph =>
              let phoneNumber := phone_primary ph in
              let p :=
                if truthy phoneNumber
                then mkPage (updatePhoneNumbers (show phoneNumber) (phoneElements p))
                            (serviceAreaElements p) (emailElement p)
                            (addressElement p) (hoursElement p) (console p)
                else p in
              let p :=
                match service info with
                | Some sv =>
                    match serviceArea sv with
                    | Some areas =>
                        if Nat.ltb 0 (List.length areas)
                        then mkPage (phoneElements p)
                                    (updateServiceArea areas (serviceAreaElements p))
                                    (emailElement p) (addressElement p)
                                    (hoursElement p) (console p)
                        else p
                    | None => p
                    end
                | None => p
                end in
              let p := updateContactInfo info p in
              match service info with
              | Some sv =>
                  match hours sv with
                  | Some h =>
                      mkPage (phoneElements p) (serviceAreaElements p)
                             (emailElement p) (addressElement p)
                             (updateBusinessHours h (hoursElement p)) (console p)
                  | None => p
                  end
              | None => p
              end
          end
      end
  end.


End BusinessInfo.

(** ** The mobile menu, lines 302-311 *)
Module MobileMenu.

(** The [.mobile-menu-toggle] element, if there is one, with the number
    of times the click listener is registered on it; and the class list
    of the [.site-header] element, if there is one. *)
Record Menu : Type := mkMenu {
  toggle : option nat;
  header : option (list string)
}.

(** [classList.toggle(token)] *)
Definition classList_toggle (token : string) (classList : list string)
  : list string :=
  if existsb (String.eqb token) classList
  then filter (fun c => negb (String.eqb token c)) classList
  else classList ++ [token].

Definition initMobileMenu (m : Menu) : Menu :=
  match toggle m, header m with
  | Some registered, Some _ => mkMenu (Some (S registered)) (header m)
  | _, _ => m
  end.

(** A click on the toggle runs every listener registered on it. *)
Definition click (m : Menu) : Menu :=
  match toggle m with
  | Some registered =>
      mkMenu (toggle m)
             (option_map (fun classList =>
                            Nat.iter registered (classList_toggle "nav-open")
                                     classList)
                         (header m))
  | None => m
  end.

End MobileMenu.

(** The array literal of the site, lines 204-210. *)
Definition siteGalleryImages : list string :=
  [ "assets/images/Gallery/gallery-1.png";
    "assets/images/Gallery/gallery-2.png";
    "assets/images/Gallery/gallery-3.png";
    "assets/images/Gallery/gallery-4.png";
    "assets/images/Gallery/gallery-5.png" ]%string.

(** A page with the track and both buttons, and one with no track. *)
Definition fullPage : Document :=
  mkDocument (Some (mkTrack [] "" "")) (Some (mkButton [])) (Some (mkButton [])).

Definition barePage : Document :=
  mkDocument None (Some (mkButton [])) (Some (mkButton [])).

Definition pageLoad : Runtime := mkRuntime 0 [] 1.

Section Carousel.

(** The array literal [galleryImages]; the closures only use its
    elements and its length. *)
Variable galleryImages : list string.

Definition len : Z := Z.of_nat (List.length galleryImages).

Definition imagesToShow : list string :=
  (galleryImages ++ galleryImages ++ galleryImages)%list.

Definition makeImg (imageSrc : string) (index : nat) : Img :=
  mkImg imageSrc
        ("Gallery image " ++ string_of_Z (Z.of_nat index mod len + 1))%string
        "gallery-image".

Definition initializeTrack (s : State) : State :=
  set_track (mkTrack (forEach_index makeImg imagesToShow 0)
                     (style_transition (track s))
                     (style_transform (track s))) s.

Definition updateTrackPosition (instant : bool) (s : State) : State :=
  if isTransitioning s && negb instant then s
  else
    let s := set_isTransitioning true s in
    let translateX := - (currentIndex s * 100) in
    let s := set_track (mkTrack (children (track s))
                                (if instant then "none"%string else smooth)
                                (translateX_css translateX)) s in
    setTimeout CbCompletion (if instant then 0 else 1200) s.

(** The callback given to [setTimeout] in [updateTrackPosition]. *)
Definition completion (s : State) : State :=
  let s := set_isTransitioning false s in
  if currentIndex s >=? len * 2 then
    updateTrackPosition true (set_currentIndex (currentIndex s - len) s)
  else if currentIndex s <? len then
    updateTrackPosition true (set_currentIndex (len + currentIndex s) s)
  else s.

Definition nextSlide (s : State) : State :=
  if isTransitioning s then s
  else updateTrackPosition false (set_currentIndex (currentIndex s + 1) s).

Definition prevSlide (s : State) : State :=
  if isTransitioning s then s
  else updateTrackPosition false (set_currentIndex (currentIndex s - 1) s).

Definition restartAutoSlide (s : State) : State :=
  let s := clearInterval (autoSlideInterval s) s in
  let (id, s) := setInterval CbNextSlide 5000 s in
  set_autoSlideInterval (Some id) s.

Inductive InitResult : Type :=
| NoGallery (d : Document) (r : Runtime)   (* the early [return] *)
| Started (s : State).

Definition initGallerySlideshow (d : Document) (r : Runtime) : InitResult :=
  match galleryTrack d with
  | None => NoGallery d r
  | Some galleryTrack =>
      let s := mkState len None false galleryTrack
                       (galleryPrev d) (galleryNext d)
                       (clock r) (table r) (freshId r) in
      let s := initializeTrack s in
      let s := updateTrackPosition false s in
      let s := match nextButton s with
               | Some b => set_nextButton (Some (addEventListener HNextClick b)) s
               | None => s
               end in
      let s := match prevButton s with
               | Some b => set_prevButton (Some (addEventListener HPrevClick b)) s
               | None => s
               end in
      Started (restartAutoSlide s)
  end.

(** ** Event loop *)

Definition runCallback (cb : Callback) (s : State) : State :=
  match cb with
  | CbCompletion => completion s
  | CbNextSlide => nextSlide s
  end.

Definition runHandler (s : State) (h : Handler) : State :=
  match h with
  | HNextClick => restartAutoSlide (nextSlide s)
  | HPrevClick => restartAutoSlide (prevSlide s)
  end.

Definition button (b : ButtonId) (s : State) : option Button :=
  match b with BtnPrev => prevButton s | BtnNext => nextButton s end.

(** After an interval callback has run the timer is armed again, one
    period after the time it ran. *)
Definition rearm (id : nat) (due : Z) (s : State) : State :=
  set_timers (map (fun tm => if has_id id tm
                             then mkTimer (tm_id tm) due (tm_repeat tm) (tm_cb tm)
                             else tm) (timers s)) s.

(** What can happen to the page: the user clicks a button at time [t], or
    the browser runs the timer with handle [id] at time [t].  A timer
    never runs before it is due, and time does not go back.  Which of
    several due timers runs first, and how late, is left open, so every
    schedule of a browser is a run of [step].  A timeout leaves the table
    before its callback runs; an interval is armed again after it. *)
Inductive Event : Type :=
| Click (b : ButtonId) (t : Z)
| Fire (id : nat) (t : Z).

Definition step (s : State) (ev : Event) : option State :=
  match ev with
  | Click b t =>
      if t <? now s then None
      else match button b s with
           | None => None
           | Some el => Some (fold_left runHandler (listeners el) (set_now t s))
           end
  | Fire id t =>
      match find (has_id id) (timers s) with
      | None => None
      | Some tm =>
          if (t <? now s) || (t <? tm_due tm) then None
          else
            let s := set_now t s in
            match tm_repeat tm with
            | None =>
                Some (runCallback (tm_cb tm) (unregister id s))
            | Some period =>
                Some (rearm id (t + period) (runCallback (tm_cb tm) s))
            end
      end
  end.

Fixpoint run (s : State) (evs : list Event) : option State :=
  match evs with
  | [] => Some s
  | ev :: evs' =>
      match step s ev with
      | Some s' => run s' evs'
      | None => None
      end
  end.

(** ** Runs and reachable states *)

(** The page as the browser hands it over: no carousel listener on the
    buttons yet, no timer registered. *)
Definition pristine (d : Document) (r : Runtime) : Prop :=
  (forall b, galleryPrev d = Some b -> listeners b = []) /\
  (forall b, galleryNext d = Some b -> listeners b = []) /\
  table r = [].

(** The states the carousel can be in: the one [initGallerySlideshow]
    returns on a pristine page, and those that events lead to from it. *)
Inductive Reachable : State -> Prop :=
| reach_init d r s :
    pristine d r -> initGallerySlideshow d r = Started s -> Reachable s
| reach_step s ev s' :
    Reachable s -> step s ev = Some s' -> Reachable s'.

Definition is_completion (tm : Timer) : bool :=
  match tm_cb tm with CbCompletion => true | CbNextSlide => false end.

(** Waiting for a move to settle: the browser runs the pending completion
    callbacks, each when it is due, until none is left.  [None] when
    [fuel] callbacks were not enough. *)
Fixpoint settle (fuel : nat) (s : State) : option State :=
  match find is_completion (timers s) with
  | None => Some s
  | Some tm =>
      match fuel with
      | O => None
      | S fuel' =>
          match step s (Fire (tm_id tm) (Z.max (now s) (tm_due tm))) with
          | Some s' => settle fuel' s'
          | None => None
          end
      end
  end.

(** ** Invariant of the reachable states

    The timer table holds the auto-advance interval and, exactly while
    [isTransitioning] is set, one completion timeout. *)
Definition iv_timer (h : nat) (due : Z) : Timer :=
  mkTimer h due (Some 5000) CbNextSlide.

Definition c_timer (c : nat) (due : Z) : Timer :=
  mkTimer c due None CbCompletion.

Inductive Shape (s : State) : Prop :=
| Idle h d :
    autoSlideInterval s = Some h ->
    isTransitioning s = false ->
    timers s = [iv_timer h d] ->
    (h < nextTimerId s)%nat ->
    len <= currentIndex s < 2 * len ->
    Shape s
| Busy h d c dc :
    autoSlideInterval s = Some h ->
    isTransitioning s = true ->
    timers s = [iv_timer h d; c_timer c dc] \/
    timers s = [c_timer c dc; iv_timer h d] ->
    (h < nextTimerId s)%nat ->
    (c < nextTimerId s)%nat ->
    c <> h ->
    len - 1 <= currentIndex s <= 2 * len ->
    Shape s.

Definition wired (s : State) : Prop :=
  (forall b, prevButton s = Some b -> listeners b = [HPrevClick]) /\
  (forall b, nextButton s = Some b -> listeners b = [HNextClick]).

Definition Inv (s : State) : Prop := Shape s /\ wired s.

(** The auto-advance timers that are armed. *)
Definition auto_timers (s : State) : list Timer :=
  filter (fun tm => negb (is_completion tm)) (timers s).

(** No auto-advance timer is due before [T], and the clock is within one
    period of [T]. *)
Definition not_before (T : Z) (s : State) : Prop :=
  T - 5000 <= now s /\
  forall tm, In tm (auto_timers s) -> T <= tm_due tm.

(** [k] forward moves in a row, each one waited for until it has
    settled. *)
Fixpoint advances (fuel k : nat) (s : State) : option State :=
  match k with
  | O => Some s
  | S k' =>
      match settle fuel (nextSlide s) with
      | Some s' => advances fuel k' s'
      | None => None
      end
  end.

(** The track shows what [initializeTrack] rendered, at the offset of the
    current index. *)
Definition rendered (s : State) : Prop :=
  children (track s) = forEach_index makeImg imagesToShow 0 /\
  style_transform (track s) = translateX_css (- (currentIndex s * 100)).

(** ** The completion callback *)

Lemma len_nonneg : 0 <= len.
Proof. unfold len; lia. Qed.

Lemma completion_in_range s :
  len <= currentIndex s < 2 * len -> completion s = set_isTransitioning false s.
Proof.
  intros Hr; unfold completion; simpl.
  destruct (Z.geb_spec (currentIndex s) (len * 2)); [lia |].
  destruct (Z.ltb_spec (currentIndex s) len); [lia | reflexivity].
Qed.

Lemma completion_past_end s :
  2 * len <= currentIndex s ->
  completion s =
  updateTrackPosition true
    (set_currentIndex (currentIndex s - len) (set_isTransitioning false s)).
Proof.
  intros Hr; unfold completion; simpl.
  destruct (Z.geb_spec (currentIndex s) (len * 2)); [reflexivity | lia].
Qed.

Lemma completion_before_start s :
  currentIndex s < len ->
  completion s =
  updateTrackPosition true
    (set_currentIndex (len + currentIndex s) (set_isTransitioning false s)).
Proof.
  intros Hr; pose proof len_nonneg; unfold completion; simpl.
  destruct (Z.geb_spec (currentIndex s) (len * 2)); [lia |].
  destruct (Z.ltb_spec (currentIndex s) len); [reflexivity | lia].
Qed.

(** What an instant re-render leaves behind. *)
Lemma instant_render i s :
  let s' := updateTrackPosition true
              (set_currentIndex i (set_isTransitioning false s)) in
  currentIndex s' = i /\
  isTransitioning s' = true /\
  style_transition (track s') = "none"%string /\
  style_transform (track s') = translateX_css (- (i * 100)) /\
  timers s' = (timers s ++ [c_timer (nextTimerId s) (now s + 0)])%list.
Proof. unfold updateTrackPosition; simpl; repeat split. Qed.

(** ** Guards *)

(** C3.  While [isTransitioning] is set, [nextSlide] and [prevSlide]
    return the state they were given: the index, the track's style, the
    pending completion timeout and the rest of the timer table are all
    untouched, so the move in flight is neither restarted nor altered and
    nothing is queued. *)
Theorem advance_dropped_while_transitioning s :
  isTransitioning s = true -> nextSlide s = s /\ prevSlide s = s.
Proof. intros E; unfold nextSlide, prevSlide; rewrite E; auto. Qed.

(** C7.  On an index already in [[len, 2 * len)] the completion callback
    makes no correction: it clears [isTransitioning] and leaves the index,
    the track and the timers as they are; running it again changes
    nothing more. *)
Theorem wrap_correction_idempotent s :
  len <= currentIndex s < 2 * len ->
  completion s = set_isTransitioning false s /\
  currentIndex (completion s) = currentIndex s /\
  completion (completion s) = completion s.
Proof.
  intros Hr; rewrite (completion_in_range s Hr).
  split; [reflexivity | split; [reflexivity |]].
  rewrite completion_in_range by (simpl; exact Hr); reflexivity.
Qed.

(** C10.  Without the [galleryTrack] element [initGallerySlideshow]
    returns at once and normally: the document (no image rendered, no
    listener added) and the runtime (no timer registered) are what they
    were. *)
Theorem init_without_track d r :
  galleryTrack d = None -> initGallerySlideshow d r = NoGallery d r.
Proof. intros E; unfold initGallerySlideshow; rewrite E; reflexivity. Qed.

(** ** Preservation of the invariant *)

Hypothesis len_pos : 1 <= len.

Ltac ids :=
  repeat match goal with
         | |- context [Nat.eqb ?a ?a] => rewrite (Nat.eqb_refl a)
         | |- context [Nat.eqb ?a ?b] =>
             destruct (Nat.eqb_spec a b); try lia; try congruence
         end.

Lemma wired_updateTrackPosition instant s :
  wired s -> wired (updateTrackPosition instant s).
Proof.
  unfold updateTrackPosition.
  destruct (isTransitioning s && negb instant); simpl; auto.
Qed.

Lemma wired_set_currentIndex i s : wired s -> wired (set_currentIndex i s).
Proof. auto. Qed.

Lemma Shape_move i s :
  Shape s -> isTransitioning s = false -> len - 1 <= i <= 2 * len ->
  Shape (updateTrackPosition false (set_currentIndex i s)).
Proof.
  intros [h d Ha Hf Ht Hh Hi | h d c dc Ha Hf Ht Hh Hc Hn Hi] Hidle Hr;
    [| congruence].
  unfold updateTrackPosition; simpl; rewrite Hf; simpl.
  apply Busy with (h := h) (d := d) (c := nextTimerId s) (dc := now s + 1200);
    simpl; auto; try lia.
  left; rewrite Ht; reflexivity.
Qed.

Lemma Shape_range s : Shape s -> len - 1 <= currentIndex s <= 2 * len.
Proof. intros [h d Ha Hf Ht Hh Hi | h d c dc Ha Hf Ht Hh Hc Hn Hi]; lia. Qed.

Lemma Shape_idle s :
  Shape s -> isTransitioning s = false -> len <= currentIndex s < 2 * len.
Proof.
  intros [h d Ha Hf Ht Hh Hi | h d c dc Ha Hf Ht Hh Hc Hn Hi] E;
    [lia | congruence].
Qed.

Lemma Inv_nextSlide s : Inv s -> Inv (nextSlide s).
Proof.
  intros [Hs Hw]; unfold nextSlide.
  destruct (isTransitioning s) eqn:Hf; [split; assumption |].
  split.
  - pose proof (Shape_idle s Hs Hf). apply Shape_move; auto; lia.
  - apply wired_updateTrackPosition, wired_set_currentIndex, Hw.
Qed.

Lemma Inv_prevSlide s : Inv s -> Inv (prevSlide s).
Proof.
  intros [Hs Hw]; unfold prevSlide.
  destruct (isTransitioning s) eqn:Hf; [split; assumption |].
  split.
  - pose proof (Shape_idle s Hs Hf). apply Shape_move; auto; lia.
  - apply wired_updateTrackPosition, wired_set_currentIndex, Hw.
Qed.

Lemma Inv_set_now t s : Inv s -> Inv (set_now t s).
Proof.
  intros [Hs Hw]; split; [| exact Hw].
  destruct Hs as [h d Ha Hf Ht Hh Hi | h d c dc Ha Hf Ht Hh Hc Hn Hi].
  - eapply Idle; simpl; eauto.
  - eapply Busy; simpl; eauto.
Qed.

Lemma wired_restartAutoSlide s : wired s -> wired (restartAutoSlide s).
Proof.
  unfold restartAutoSlide; destruct (autoSlideInterval s); simpl; auto.
Qed.

Lemma Inv_restartAutoSlide s : Inv s -> Inv (restartAutoSlide s).
Proof.
  intros [Hs Hw]; split; [| apply wired_restartAutoSlide, Hw].
  destruct Hs as [h d Ha Hf Ht Hh Hi | h d c dc Ha Hf Ht Hh Hc Hn Hi];
    unfold restartAutoSlide; rewrite Ha; simpl.
  - rewrite Ht; simpl; unfold has_id; simpl; ids; simpl.
    apply Idle with (h := nextTimerId s) (d := now s + 5000); simpl; auto.
  - apply Busy with (h := nextTimerId s) (d := now s + 5000) (c := c) (dc := dc);
      simpl; auto; try lia.
    right; destruct Ht as [-> | ->]; simpl; unfold has_id; simpl; ids;
      reflexivity.
Qed.

Lemma wired_rearm id due s : wired s -> wired (rearm id due s).
Proof. auto. Qed.

Lemma Inv_rearm due s h :
  Inv s -> autoSlideInterval s = Some h -> Inv (rearm h due s).
Proof.
  intros [Hs Hw] E; split; [| apply wired_rearm, Hw].
  destruct Hs as [h' d Ha Hf Ht Hh Hi | h' d c dc Ha Hf Ht Hh Hc Hn Hi];
    assert (h' = h) by congruence; subst h'.
  - apply Idle with (h := h) (d := due); simpl; auto.
    rewrite Ht; simpl; unfold has_id; simpl; ids; reflexivity.
  - apply Busy with (h := h) (d := due) (c := c) (dc := dc); simpl; auto.
    destruct Ht as [-> | ->]; [left | right]; simpl; unfold has_id; simpl;
      ids; reflexivity.
Qed.

Lemma wired_completion s : wired s -> wired (completion s).
Proof.
  intros Hw; unfold completion; simpl.
  destruct (currentIndex s >=? len * 2);
    [| destruct (currentIndex s <? len)];
    try apply wired_updateTrackPosition; exact Hw.
Qed.

Lemma wired_unregister id s : wired s -> wired (unregister id s).
Proof. auto. Qed.

(** Running the pending completion callback re-establishes the invariant
    and leaves the index in the middle copy. *)
Lemma Inv_fire_completion s c dc t :
  Inv s -> In (c_timer c dc) (timers s) ->
  let s' := completion (unregister c (set_now t s)) in
  Inv s' /\ len <= currentIndex s' < 2 * len.
Proof.
  intros [Hs Hw] Hin; simpl.
  assert (Hw' : wired (completion (unregister c (set_now t s))))
    by (apply wired_completion, wired_unregister; exact Hw).
  destruct Hs as [h d Ha Hf Ht Hh Hi | h d c' dc' Ha Hf Ht Hh Hc Hn Hi].
  - rewrite Ht in Hin; simpl in Hin; destruct Hin as [Hin | []]; discriminate.
  - assert (c' = c /\ dc' = dc) as [-> ->].
    { destruct Ht as [Ht | Ht]; rewrite Ht in Hin; simpl in Hin;
        destruct Hin as [Hin | [Hin | []]]; try discriminate;
        inversion Hin; auto. }
    assert (Hclr : timers (unregister c (set_now t s)) = [iv_timer h d]).
    { destruct Ht as [Ht | Ht]; simpl; rewrite Ht; simpl; unfold has_id; simpl;
        ids; reflexivity. }
    clear Ht Hin.
    unfold completion in *; simpl in *.
    destruct (Z.geb_spec (currentIndex s) (len * 2)) as [Hge | Hlt].
    + unfold updateTrackPosition in *; simpl in *.
      split; [split; [| exact Hw'] | lia].
      apply Busy with (h := h) (d := d) (c := nextTimerId s) (dc := t + 0);
        simpl; auto; try lia.
      left; rewrite Hclr; reflexivity.
    + destruct (Z.ltb_spec (currentIndex s) len) as [Hlo | Hhi].
      * unfold updateTrackPosition in *; simpl in *.
        split; [split; [| exact Hw'] | lia].
        apply Busy with (h := h) (d := d) (c := nextTimerId s) (dc := t + 0);
          simpl; auto; try lia.
        left; rewrite Hclr; reflexivity.
      * split; [split; [| exact Hw'] | simpl; lia].
        apply Idle with (h := h) (d := d); simpl; auto; lia.
Qed.

(** The two ways a timer can run in a state that satisfies the invariant:
    the auto-advance interval, or the pending completion timeout. *)
Lemma step_Fire_cases s id t s' :
  Inv s -> step s (Fire id t) = Some s' ->
  (autoSlideInterval s = Some id /\
   (exists d, find (has_id id) (timers s) = Some (iv_timer id d) /\ d <= t) /\
   s' = rearm id (t + 5000) (nextSlide (set_now t s))) \/
  (isTransitioning s = true /\
   (exists dc, find (has_id id) (timers s) = Some (c_timer id dc) /\ dc <= t) /\
   s' = completion (unregister id (set_now t s))).
Proof.
  intros [Hs _] Hstep; unfold step in Hstep.
  assert (Hfind : exists h d,
             autoSlideInterval s = Some h /\
             (find (has_id id) (timers s) =
                (if Nat.eqb h id then Some (iv_timer h d) else None) \/
              exists c dc,
                isTransitioning s = true /\
                find (has_id id) (timers s) =
                  if Nat.eqb h id then Some (iv_timer h d)
                  else if Nat.eqb c id then Some (c_timer c dc) else None)).
  { destruct Hs as [h d Ha Hf Ht Hh Hi | h d c dc Ha Hf Ht Hh Hc Hn Hi];
      exists h, d; (split; [exact Ha |]).
    - left; rewrite Ht; reflexivity.
    - right; exists c, dc; split; [exact Hf |].
      destruct Ht as [-> | ->]; simpl; unfold has_id; simpl;
        destruct (Nat.eqb_spec h id), (Nat.eqb_spec c id); congruence. }
  destruct Hfind as (h & d & Ha & [Hfind | (c & dc & Hf & Hfind)]);
    destruct (Nat.eqb_spec h id) as [-> | Hne];
    try (rewrite Hfind in Hstep; discriminate).
  - left; rewrite Hfind in Hstep; simpl in Hstep.
    destruct (Z.ltb_spec t (now s)); simpl in Hstep; [discriminate |].
    destruct (Z.ltb_spec t d); simpl in Hstep; [discriminate |].
    split; [exact Ha | split; [exists d; auto |]].
    injection Hstep as <-; reflexivity.
  - left; rewrite Hfind in Hstep; simpl in Hstep.
    destruct (Z.ltb_spec t (now s)); simpl in Hstep; [discriminate |].
    destruct (Z.ltb_spec t d); simpl in Hstep; [discriminate |].
    split; [exact Ha | split; [exists d; auto |]].
    injection Hstep as <-; reflexivity.
  - destruct (Nat.eqb_spec c id) as [-> | Hne'];
      [| rewrite Hfind in Hstep; discriminate].
    right; rewrite Hfind in Hstep; simpl in Hstep.
    destruct (Z.ltb_spec t (now s)); simpl in Hstep; [discriminate |].
    destruct (Z.ltb_spec t dc); simpl in Hstep; [discriminate |].
    split; [exact Hf | split; [exists dc; auto |]].
    injection Hstep as <-; reflexivity.
Qed.

Lemma step_time s ev s' :
  step s ev = Some s' ->
  match ev with Click _ t => now s <= t | Fire _ t => now s <= t end.
Proof.
  destruct ev as [b t | id t]; unfold step.
  - destruct (Z.ltb_spec t (now s)); [discriminate | auto].
  - destruct (find (has_id id) (timers s)); [| discriminate].
    destruct (Z.ltb_spec t (now s)); [discriminate | auto].
Qed.

Lemma step_Click_cases s b t s' :
  Inv s -> step s (Click b t) = Some s' ->
  now s <= t /\
  (s' = restartAutoSlide (nextSlide (set_now t s)) \/
   s' = restartAutoSlide (prevSlide (set_now t s))).
Proof.
  intros [_ [Hp Hn]] Hstep; unfold step in Hstep.
  destruct (Z.ltb_spec t (now s)); [discriminate |].
  split; [assumption |].
  destruct b; simpl in Hstep.
  - destruct (prevButton s) as [el |] eqn:E; [| discriminate].
    rewrite (Hp el eq_refl) in Hstep; simpl in Hstep.
    injection Hstep as <-; auto.
  - destruct (nextButton s) as [el |] eqn:E; [| discriminate].
    rewrite (Hn el eq_refl) in Hstep; simpl in Hstep.
    injection Hstep as <-; auto.
Qed.

Lemma Inv_step s ev s' : Inv s -> step s ev = Some s' -> Inv s'.
Proof.
  intros HI Hstep; destruct ev as [b t | id t].
  - destruct (step_Click_cases _ _ _ _ HI Hstep) as [_ [-> | ->]];
      apply Inv_restartAutoSlide;
      [apply Inv_nextSlide | apply Inv_prevSlide]; apply Inv_set_now, HI.
  - destruct (step_Fire_cases _ _ _ _ HI Hstep)
      as [(Ha & _ & ->) | (_ & (dc & Hin & _) & ->)];
      [| apply find_some in Hin; destruct Hin as [Hin _]].
    + apply Inv_rearm.
      * apply Inv_nextSlide, Inv_set_now, HI.
      * unfold nextSlide, updateTrackPosition; simpl.
        destruct (isTransitioning s); simpl; exact Ha.
    + apply (Inv_fire_completion s id dc t HI Hin).
Qed.

Lemma Inv_init d r s :
  pristine d r -> initGallerySlideshow d r = Started s -> Inv s.
Proof.
  intros (Hp & Hn & Htab) Hinit; unfold initGallerySlideshow in Hinit.
  destruct (galleryTrack d) as [tr |]; [| discriminate].
  injection Hinit as <-.
  unfold updateTrackPosition; simpl.
  split.
  - destruct (galleryNext d) as [bn |], (galleryPrev d) as [bp |];
      simpl; rewrite Htab; simpl; unfold has_id; simpl;
      apply Busy with (h := S (freshId r)) (d := clock r + 5000)
                      (c := freshId r) (dc := clock r + 1200);
      simpl; auto; lia.
  - split; intros b; destruct (galleryNext d) as [bn |] eqn:En,
      (galleryPrev d) as [bp |] eqn:Ep; simpl; intros E;
      try discriminate; injection E as <-; simpl.
    + rewrite (Hp bp); auto.
    + rewrite (Hp bp); auto.
    + rewrite (Hn bn); auto.
    + rewrite (Hn bn); auto.
Qed.

Lemma Reachable_Inv s : Reachable s -> Inv s.
Proof.
  induction 1 as [d r s Hp Hinit | s ev s' _ IH Hstep].
  - exact (Inv_init d r s Hp Hinit).
  - exact (Inv_step s ev s' IH Hstep).
Qed.

(** ** Running timers *)

Lemma Inv_pending_busy s :
  Inv s -> isTransitioning s = true ->
  exists c dc,
    find is_completion (timers s) = Some (c_timer c dc) /\
    find (has_id c) (timers s) = Some (c_timer c dc).
Proof.
  intros [Hs _] E.
  destruct Hs as [h d Ha Hf Ht Hh Hi | h d c dc Ha Hf Ht Hh Hc Hn Hi];
    [congruence |].
  exists c, dc; destruct Ht as [-> | ->]; simpl; unfold has_id; simpl; ids;
    auto.
Qed.

Lemma Inv_pending_idle s :
  Inv s -> isTransitioning s = false -> find is_completion (timers s) = None.
Proof.
  intros [Hs _] E.
  destruct Hs as [h d Ha Hf Ht Hh Hi | h d c dc Ha Hf Ht Hh Hc Hn Hi];
    [| congruence].
  rewrite Ht; reflexivity.
Qed.

Lemma Inv_handle s :
  Inv s ->
  exists h d,
    autoSlideInterval s = Some h /\
    find (has_id h) (timers s) = Some (iv_timer h d) /\
    auto_timers s = [iv_timer h d].
Proof.
  intros [Hs _]; unfold auto_timers.
  destruct Hs as [h d Ha Hf Ht Hh Hi | h d c dc Ha Hf Ht Hh Hc Hn Hi];
    exists h, d; (split; [exact Ha |]).
  - rewrite Ht; simpl; unfold has_id; simpl; ids; auto.
  - destruct Ht as [-> | ->]; simpl; unfold has_id; simpl; ids; auto.
Qed.

Lemma step_Fire_timeout s id t tm :
  find (has_id id) (timers s) = Some tm -> tm_repeat tm = None ->
  now s <= t -> tm_due tm <= t ->
  step s (Fire id t) =
  Some (runCallback (tm_cb tm) (unregister id (set_now t s))).
Proof.
  intros Hfind Hrep Hnow Hdue; unfold step; rewrite Hfind, Hrep.
  destruct (Z.ltb_spec t (now s)); [lia |].
  destruct (Z.ltb_spec t (tm_due tm)); [lia | reflexivity].
Qed.

Lemma step_Fire_interval s id t tm period :
  find (has_id id) (timers s) = Some tm -> tm_repeat tm = Some period ->
  now s <= t -> tm_due tm <= t ->
  step s (Fire id t) =
  Some (rearm id (t + period) (runCallback (tm_cb tm) (set_now t s))).
Proof.
  intros Hfind Hrep Hnow Hdue; unfold step; rewrite Hfind, Hrep.
  destruct (Z.ltb_spec t (now s)); [lia |].
  destruct (Z.ltb_spec t (tm_due tm)); [lia | reflexivity].
Qed.

Lemma step_Fire_early s id t tm :
  find (has_id id) (timers s) = Some tm -> t < tm_due tm ->
  step s (Fire id t) = None.
Proof.
  intros Hfind Hdue; unfold step; rewrite Hfind.
  destruct (Z.ltb_spec t (tm_due tm)); [| lia].
  rewrite orb_true_r; reflexivity.
Qed.

(** The index and the flag after the completion callback of timer [c]. *)
Lemma fired_completion_index s c t :
  let s' := completion (unregister c (set_now t s)) in
  (2 * len <= currentIndex s ->
   currentIndex s' = currentIndex s - len /\ isTransitioning s' = true) /\
  (currentIndex s < len ->
   currentIndex s' = len + currentIndex s /\ isTransitioning s' = true) /\
  (len <= currentIndex s < 2 * len ->
   currentIndex s' = currentIndex s /\ isTransitioning s' = false).
Proof.
  cbv zeta; split; [| split]; intros Hr.
  - rewrite completion_past_end by (simpl; lia); split; reflexivity.
  - rewrite completion_before_start by (simpl; lia); split; reflexivity.
  - rewrite completion_in_range by (simpl; lia); split; reflexivity.
Qed.

Lemma settle_idle s fuel :
  Inv s -> isTransitioning s = false -> settle fuel s = Some s.
Proof.
  intros HI E; destruct fuel; simpl; rewrite (Inv_pending_idle s HI E);
    reflexivity.
Qed.

Lemma settle_busy s fuel :
  Inv s -> isTransitioning s = true ->
  exists c dc t,
    In (c_timer c dc) (timers s) /\
    step s (Fire c t) = Some (completion (unregister c (set_now t s))) /\
    settle (S fuel) s =
    settle fuel (completion (unregister c (set_now t s))).
Proof.
  intros HI E.
  destruct (Inv_pending_busy s HI E) as (c & dc & Hfc & Hfi).
  exists c, dc, (Z.max (now s) dc).
  assert (Hstep : step s (Fire c (Z.max (now s) dc)) =
                  Some (completion (unregister c
                                      (set_now (Z.max (now s) dc) s)))).
  { apply (step_Fire_timeout s c _ (c_timer c dc)); simpl; auto; lia. }
  split; [| split; [exact Hstep |]].
  - apply find_some in Hfi; tauto.
  - cbn [settle]; rewrite Hfc; cbn [tm_id tm_due c_timer]; rewrite Hstep;
      reflexivity.
Qed.

(** Two callbacks always suffice to settle: the completion of the move
    and, after a wrap, the completion of the instant re-render. *)
Lemma settle_spec s fuel :
  Inv s -> (2 <= fuel)%nat ->
  exists s',
    settle fuel s = Some s' /\ Inv s' /\ isTransitioning s' = false /\
    (2 * len <= currentIndex s -> currentIndex s' = currentIndex s - len) /\
    (currentIndex s < len -> currentIndex s' = len + currentIndex s) /\
    (len <= currentIndex s < 2 * len -> currentIndex s' = currentIndex s).
Proof.
  intros HI Hfuel.
  destruct (isTransitioning s) eqn:E.
  2:{ exists s; rewrite settle_idle by assumption.
      pose proof (Shape_idle s (proj1 HI) E).
      split; [reflexivity | split; [exact HI | split; [exact E |]]].
      split; [| split]; intros; lia. }
  destruct fuel as [| [| fuel]]; try lia.
  destruct (settle_busy s (S fuel) HI E) as (c & dc & t & Hin & _ & ->).
  destruct (Inv_fire_completion s c dc t HI Hin) as [HI1 Hr1].
  destruct (fired_completion_index s c t) as (Hhi & Hlo & Hmid).
  set (s1 := completion (unregister c (set_now t s))) in *.
  destruct (isTransitioning s1) eqn:E1.
  - destruct (settle_busy s1 fuel HI1 E1) as (c1 & dc1 & t1 & Hin1 & _ & ->).
    destruct (Inv_fire_completion s1 c1 dc1 t1 HI1 Hin1) as [HI2 Hr2].
    destruct (fired_completion_index s1 c1 t1) as (_ & _ & Hmid1).
    set (s2 := completion (unregister c1 (set_now t1 s1))) in *.
    destruct (Hmid1 Hr1) as [Hi2 Hf2].
    exists s2; rewrite settle_idle by assumption.
    split; [reflexivity | split; [exact HI2 | split; [exact Hf2 |]]].
    rewrite Hi2; split; [| split]; intros Hc.
    + apply Hhi, Hc.
    + apply Hlo, Hc.
    + apply Hmid, Hc.
  - exists s1; rewrite settle_idle by assumption.
    split; [reflexivity | split; [exact HI1 | split; [exact E1 |]]].
    split; [| split]; intros Hc.
    + apply Hhi, Hc.
    + apply Hlo, Hc.
    + apply Hmid, Hc.
Qed.

(** ** Moves *)

Lemma nextSlide_idle s :
  isTransitioning s = false ->
  currentIndex (nextSlide s) = currentIndex s + 1 /\
  isTransitioning (nextSlide s) = true.
Proof.
  intros E; unfold nextSlide, updateTrackPosition; rewrite E; simpl;
    rewrite E; simpl; auto.
Qed.

Lemma prevSlide_idle s :
  isTransitioning s = false ->
  currentIndex (prevSlide s) = currentIndex s - 1 /\
  isTransitioning (prevSlide s) = true.
Proof.
  intros E; unfold prevSlide, updateTrackPosition; rewrite E; simpl;
    rewrite E; simpl; auto.
Qed.

Lemma restartAutoSlide_vars s :
  currentIndex (restartAutoSlide s) = currentIndex s /\
  isTransitioning (restartAutoSlide s) = isTransitioning s.
Proof. unfold restartAutoSlide; destruct (autoSlideInterval s); simpl; auto. Qed.

Lemma reach_settle s :
  Reachable s -> isTransitioning s = true ->
  len <= currentIndex s < 2 * len ->
  exists s',
    Reachable s' /\ isTransitioning s' = false /\
    currentIndex s' = currentIndex s /\
    prevButton s' = prevButton s /\ now s <= now s'.
Proof.
  intros HR E Hr; pose proof (Reachable_Inv s HR) as HI.
  destruct (settle_busy s 0 HI E) as (c & dc & t & Hin & Hstep & _).
  destruct (fired_completion_index s c t) as (_ & _ & Hmid).
  destruct (Hmid Hr) as [Hi Hf].
  eexists; split; [eapply reach_step; [exact HR | exact Hstep] |].
  split; [exact Hf | split; [exact Hi |]].
  pose proof (step_time s _ _ Hstep) as Ht; simpl in Ht.
  rewrite completion_in_range by (simpl; lia); simpl; split; auto.
Qed.

Lemma reach_auto s :
  Reachable s -> isTransitioning s = false ->
  exists s',
    Reachable s' /\ isTransitioning s' = true /\
    currentIndex s' = currentIndex s + 1.
Proof.
  intros HR E; pose proof (Reachable_Inv s HR) as HI.
  destruct (Inv_handle s HI) as (h & d & Ha & Hfind & _).
  pose proof (step_Fire_interval s h (Z.max (now s) d) _ 5000 Hfind eq_refl)
    as Hstep.
  cbn [tm_due tm_cb iv_timer runCallback] in Hstep.
  eexists; split; [eapply reach_step; [exact HR | apply Hstep; lia] |].
  destruct (nextSlide_idle (set_now (Z.max (now s) d) s) E) as [Hi Hf].
  simpl; split; [exact Hf | exact Hi].
Qed.

Lemma reach_loaded :
  exists s, Reachable s /\ isTransitioning s = true /\ currentIndex s = len /\
            prevButton s = Some (mkButton [HPrevClick]).
Proof.
  eexists; split; [eapply (reach_init fullPage pageLoad) |].
  - repeat split; simpl; intros b E; injection E as <-; reflexivity.
  - reflexivity.
  - repeat split.
Qed.

Lemma reach_idle_at k :
  (k < List.length galleryImages)%nat ->
  exists s, Reachable s /\ isTransitioning s = false /\
            currentIndex s = len + Z.of_nat k.
Proof.
  induction k as [| k IH]; intros Hk.
  - destruct reach_loaded as (s0 & HR & Hf & Hi & _).
    destruct (reach_settle s0 HR Hf) as (s1 & HR1 & Hf1 & Hi1 & _); [lia |].
    exists s1; repeat split; auto; lia.
  - destruct IH as (s & HR & Hf & Hi); [lia |].
    destruct (reach_auto s HR Hf) as (s1 & HR1 & Hf1 & Hi1).
    destruct (reach_settle s1 HR1 Hf1) as (s2 & HR2 & Hf2 & Hi2 & _).
    { unfold len in *; lia. }
    exists s2; repeat split; auto; lia.
Qed.

(** ** Properties of the controller *)

(** C1.  With at least one image, in every reachable state the position
    index lies between [len - 1] and [2 * len]; whenever no move is in
    flight, and right after any run of a completion callback (the settle,
    instant correction included), it lies in the middle copy
    [[len, 2 * len)]; and both [len - 1] and [2 * len] do occur while a
    move is in flight. *)
Theorem index_settles_in_middle_copy :
  (forall s, Reachable s ->
     len - 1 <= currentIndex s <= 2 * len /\
     (isTransitioning s = false -> len <= currentIndex s < 2 * len) /\
     (forall id t tm s',
        find (has_id id) (timers s) = Some tm -> tm_cb tm = CbCompletion ->
        step s (Fire id t) = Some s' ->
        len <= currentIndex s' < 2 * len)) /\
  (exists s, Reachable s /\ isTransitioning s = true /\
             currentIndex s = len - 1) /\
  (exists s, Reachable s /\ isTransitioning s = true /\
             currentIndex s = 2 * len).
Proof.
  split; [| split].
  - intros s HR; pose proof (Reachable_Inv s HR) as HI.
    split; [apply Shape_range, HI | split; [apply Shape_idle, HI |]].
    intros id t tm s' Hfind Hcb Hstep.
    destruct (step_Fire_cases s id t s' HI Hstep)
      as [(_ & (d & Hf & _) & _) | (_ & (dc & Hf & _) & ->)].
    + rewrite Hf in Hfind; injection Hfind as <-; discriminate.
    + apply find_some in Hf; destruct Hf as [Hin _].
      apply (Inv_fire_completion s id dc t HI Hin).
  - destruct reach_loaded as (s0 & HR0 & Hf0 & Hi0 & Hb0).
    destruct (reach_settle s0 HR0 Hf0) as (s1 & HR1 & Hf1 & Hi1 & Hb1 & _);
      [lia |].
    assert (Hstep : step s1 (Click BtnPrev (now s1)) =
                    Some (restartAutoSlide (prevSlide (set_now (now s1) s1)))).
    { unfold step; rewrite Z.ltb_irrefl; simpl button.
      rewrite Hb1, Hb0; reflexivity. }
    eexists; split; [eapply reach_step; [exact HR1 | exact Hstep] |].
    destruct (restartAutoSlide_vars (prevSlide (set_now (now s1) s1)))
      as [-> ->].
    destruct (prevSlide_idle (set_now (now s1) s1) Hf1) as [-> ->].
    simpl; split; [reflexivity | lia].
  - destruct (reach_idle_at (List.length galleryImages - 1)) as (s & HR & Hf & Hi).
    { unfold len in len_pos; lia. }
    destruct (reach_auto s HR Hf) as (s1 & HR1 & Hf1 & Hi1).
    exists s1; split; [exact HR1 | split; [exact Hf1 |]].
    unfold len in *; lia.
Qed.

(** C5.  With at least one image, let the completion callback run on an
    index that a single step from the middle copy can produce
    ([len - 1 <= index <= 2 * len]).
    The index is then in [[len, 2 * len)].  When a correction was made,
    the instant re-render sets [isTransitioning] again, but only together
    with one timeout of delay 0; and the callback of that timeout (or any
    later run of the callback at the corrected index) takes no correction
    branch: it clears the flag and changes nothing else. *)
Theorem correction_stops_after_one_adjustment s :
  len - 1 <= currentIndex s <= 2 * len ->
  let s1 := completion s in
  len <= currentIndex s1 < 2 * len /\
  (currentIndex s < len \/ 2 * len <= currentIndex s ->
   isTransitioning s1 = true /\
   style_transition (track s1) = "none"%string /\
   timers s1 = (timers s ++ [c_timer (nextTimerId s) (now s + 0)])%list) /\
  (forall t,
     let s2 := completion (unregister (nextTimerId s) (set_now t s1)) in
     currentIndex s2 = currentIndex s1 /\
     isTransitioning s2 = false /\
     track s2 = track s1 /\
     timers s2 = filter (fun tm => negb (has_id (nextTimerId s) tm)) (timers s1)) /\
  (forall s', currentIndex s' = currentIndex s1 ->
              completion s' = set_isTransitioning false s').
Proof.
  intros Hr s1.
  assert (Hs1 : len <= currentIndex s1 < 2 * len).
  { subst s1.
    destruct (Z.lt_ge_cases (currentIndex s) len);
      [rewrite completion_before_start by assumption; simpl; lia |].
    destruct (Z.lt_ge_cases (currentIndex s) (2 * len));
      [rewrite completion_in_range by lia; simpl; lia |].
    rewrite completion_past_end by assumption; simpl; lia. }
  split; [exact Hs1 | split; [| split]].
  - subst s1; intros [Hlo | Hhi].
    + rewrite completion_before_start by assumption.
      destruct (instant_render (len + currentIndex s) s) as (_ & ? & ? & _ & ?).
      auto.
    + rewrite completion_past_end by assumption.
      destruct (instant_render (currentIndex s - len) s) as (_ & ? & ? & _ & ?).
      auto.
  - intros t s2; subst s2.
    rewrite completion_in_range by (simpl; exact Hs1); simpl; auto.
  - intros s' E; apply completion_in_range; rewrite E; exact Hs1.
Qed.

(** C6.  With at least one image: from a reachable state with no move in
    flight (so the index is in the middle copy), [nextSlide], waiting until it has settled, then
    [prevSlide] and waiting again, ends with the index it started from;
    the same holds for [prevSlide] first and [nextSlide] second.  Two
    callbacks of fuel are always enough for each wait. *)
Theorem advance_round_trip s fuel :
  Reachable s -> isTransitioning s = false -> (2 <= fuel)%nat ->
  (exists s1 s2,
     settle fuel (nextSlide s) = Some s1 /\
     settle fuel (prevSlide s1) = Some s2 /\
     isTransitioning s2 = false /\ currentIndex s2 = currentIndex s) /\
  (exists s1 s2,
     settle fuel (prevSlide s) = Some s1 /\
     settle fuel (nextSlide s1) = Some s2 /\
     isTransitioning s2 = false /\ currentIndex s2 = currentIndex s).
Proof.
  intros HR E Hfuel; pose proof (Reachable_Inv s HR) as HI.
  pose proof (Shape_idle s (proj1 HI) E) as Hr.
  split.
  - destruct (nextSlide_idle s E) as [Hi1 _].
    destruct (settle_spec (nextSlide s) fuel (Inv_nextSlide s HI) Hfuel)
      as (s1 & Hs1 & HI1 & Hf1 & Hhi1 & _ & Hmid1).
    destruct (prevSlide_idle s1 Hf1) as [Hi2 _].
    destruct (settle_spec (prevSlide s1) fuel (Inv_prevSlide s1 HI1) Hfuel)
      as (s2 & Hs2 & HI2 & Hf2 & _ & Hlo2 & Hmid2).
    exists s1, s2; repeat split; auto.
    destruct (Z.lt_ge_cases (currentIndex s + 1) (2 * len)).
    + rewrite Hmid2; lia.
    + rewrite Hlo2; lia.
  - destruct (prevSlide_idle s E) as [Hi1 _].
    destruct (settle_spec (prevSlide s) fuel (Inv_prevSlide s HI) Hfuel)
      as (s1 & Hs1 & HI1 & Hf1 & _ & Hlo1 & Hmid1).
    destruct (nextSlide_idle s1 Hf1) as [Hi2 _].
    destruct (settle_spec (nextSlide s1) fuel (Inv_nextSlide s1 HI1) Hfuel)
      as (s2 & Hs2 & HI2 & Hf2 & Hhi2 & _ & Hmid2).
    exists s1, s2; repeat split; auto.
    destruct (Z.lt_ge_cases (currentIndex s - 1) len).
    + rewrite Hhi2; lia.
    + rewrite Hmid2; lia.
Qed.

(** ** The auto-advance timer *)

Lemma restart_timers s :
  Inv s ->
  autoSlideInterval (restartAutoSlide s) = Some (nextTimerId s) /\
  auto_timers (restartAutoSlide s) = [iv_timer (nextTimerId s) (now s + 5000)] /\
  now (restartAutoSlide s) = now s /\
  (forall h, autoSlideInterval s = Some h ->
             find (has_id h) (timers (restartAutoSlide s)) = None).
Proof.
  intros [Hs _]; unfold auto_timers.
  destruct Hs as [h d Ha Hf Ht Hh Hi | h d c dc Ha Hf Ht Hh Hc Hn Hi];
    unfold restartAutoSlide; rewrite Ha; simpl.
  - rewrite Ht; simpl; unfold has_id; simpl; ids; simpl.
    repeat split; auto.
    intros h' E; injection E as <-; ids; reflexivity.
  - assert (Hclr : filter (fun tm => negb (has_id h tm)) (timers s) =
                   [c_timer c dc]).
    { destruct Ht as [-> | ->]; simpl; unfold has_id; simpl; ids;
        reflexivity. }
    rewrite Hclr; simpl; unfold has_id; simpl.
    repeat split; auto.
    intros h' E; injection E as <-; ids; reflexivity.
Qed.

Lemma rearm_auto due s h :
  Inv s -> autoSlideInterval s = Some h ->
  auto_timers (rearm h due s) = [iv_timer h due].
Proof.
  intros [Hs _] E; unfold auto_timers.
  destruct Hs as [h' d Ha Hf Ht Hh Hi | h' d c dc Ha Hf Ht Hh Hc Hn Hi];
    assert (h' = h) by congruence; subst h'; simpl.
  - rewrite Ht; simpl; unfold has_id; simpl; ids; reflexivity.
  - destruct Ht as [-> | ->]; simpl; unfold has_id; simpl; ids; reflexivity.
Qed.

Lemma fire_completion_auto s c dc t :
  Inv s -> In (c_timer c dc) (timers s) ->
  auto_timers (completion (unregister c (set_now t s))) =
  auto_timers s.
Proof.
  intros [Hs _] Hin; unfold auto_timers.
  assert (Hupd : forall x, filter (fun tm => negb (is_completion tm))
                             (timers (completion x)) =
                           filter (fun tm => negb (is_completion tm)) (timers x)).
  { intros x; unfold completion, updateTrackPosition; simpl.
    destruct (currentIndex x >=? len * 2);
      [| destruct (currentIndex x <? len)]; simpl;
      rewrite ?filter_app; simpl; rewrite ?app_nil_r; reflexivity. }
  rewrite Hupd; simpl.
  destruct Hs as [h d Ha Hf Ht Hh Hi | h d c' dc' Ha Hf Ht Hh Hc Hn Hi].
  - rewrite Ht in Hin; simpl in Hin; destruct Hin as [Hin | []]; discriminate.
  - assert (c' = c).
    { destruct Ht as [Ht | Ht]; rewrite Ht in Hin; simpl in Hin;
        destruct Hin as [Hin | [Hin | []]]; try discriminate;
        inversion Hin; auto. }
    subst c'.
    destruct Ht as [-> | ->]; simpl; unfold has_id; simpl; ids; reflexivity.
Qed.

Lemma now_nextSlide s : now (nextSlide s) = now s.
Proof.
  unfold nextSlide, updateTrackPosition; simpl.
  destruct (isTransitioning s); reflexivity.
Qed.

Lemma now_prevSlide s : now (prevSlide s) = now s.
Proof.
  unfold prevSlide, updateTrackPosition; simpl.
  destruct (isTransitioning s); reflexivity.
Qed.

Lemma now_completion s : now (completion s) = now s.
Proof.
  unfold completion, updateTrackPosition; simpl.
  destruct (currentIndex s >=? len * 2);
    [| destruct (currentIndex s <? len)]; reflexivity.
Qed.

Lemma not_before_step T s ev s' :
  Inv s -> not_before T s -> step s ev = Some s' -> not_before T s'.
Proof.
  intros HI [Hnow Hdue] Hstep; destruct ev as [b t | id t].
  - destruct (step_Click_cases s b t s' HI Hstep) as [Ht [-> | ->]].
    + destruct (restart_timers (nextSlide (set_now t s)))
        as (_ & Hauto & Hn & _); [apply Inv_nextSlide, Inv_set_now, HI |].
      rewrite now_nextSlide in Hauto, Hn; cbn [now set_now] in Hauto, Hn.
      split; [rewrite Hn; lia |].
      rewrite Hauto; intros tm [<- | []]; simpl; lia.
    + destruct (restart_timers (prevSlide (set_now t s)))
        as (_ & Hauto & Hn & _); [apply Inv_prevSlide, Inv_set_now, HI |].
      rewrite now_prevSlide in Hauto, Hn; cbn [now set_now] in Hauto, Hn.
      split; [rewrite Hn; lia |].
      rewrite Hauto; intros tm [<- | []]; simpl; lia.
  - pose proof (step_time s _ _ Hstep) as Ht; simpl in Ht.
    destruct (step_Fire_cases s id t s' HI Hstep)
      as [(Ha & _ & ->) | (_ & (dc & Hf & _) & ->)].
    + split; [simpl; rewrite now_nextSlide; simpl; lia |].
      rewrite rearm_auto.
      * intros tm [<- | []]; simpl; lia.
      * apply Inv_nextSlide, Inv_set_now, HI.
      * unfold nextSlide, updateTrackPosition; simpl.
        destruct (isTransitioning s); simpl; exact Ha.
    + apply find_some in Hf; destruct Hf as [Hin _].
      split; [rewrite now_completion; simpl; lia |].
      rewrite (fire_completion_auto s id dc t HI Hin); exact Hdue.
Qed.

Lemma not_before_run T evs : forall s s',
  Inv s -> not_before T s -> run s evs = Some s' ->
  Inv s' /\ not_before T s'.
Proof.
  induction evs as [| ev evs IH]; intros s s' HI HT Hrun; simpl in Hrun.
  - injection Hrun as <-; auto.
  - destruct (step s ev) as [s1 |] eqn:Hstep; [| discriminate].
    apply (IH s1 s'); auto.
    + exact (Inv_step s ev s1 HI Hstep).
    + exact (not_before_step T s ev s1 HI HT Hstep).
Qed.

(** C8.  With at least one image, in every reachable state exactly one
    auto-advance timer is armed: the interval whose handle is in [autoSlideInterval], with callback
    [nextSlide] and period 5000 ms (not 4000).  It cannot run before it is
    due; when it runs at time [t] it calls [nextSlide] and is armed again
    for [t + 5000].  [restartAutoSlide] arms it 5000 ms after the current
    time. *)
Theorem auto_advance_period s :
  Reachable s ->
  5000 <> 4000 /\
  (exists h d,
     autoSlideInterval s = Some h /\
     auto_timers s = [mkTimer h d (Some 5000) CbNextSlide] /\
     (forall t, t < d -> step s (Fire h t) = None) /\
     (forall t, now s <= t -> d <= t ->
        let s' := rearm h (t + 5000) (nextSlide (set_now t s)) in
        step s (Fire h t) = Some s' /\
        auto_timers s' = [mkTimer h (t + 5000) (Some 5000) CbNextSlide])) /\
  auto_timers (restartAutoSlide s) =
  [mkTimer (nextTimerId s) (now s + 5000) (Some 5000) CbNextSlide].
Proof.
  intros HR; pose proof (Reachable_Inv s HR) as HI.
  split; [lia | split].
  - destruct (Inv_handle s HI) as (h & d & Ha & Hfind & Hauto).
    exists h, d; split; [exact Ha | split; [exact Hauto | split]].
    + intros t Ht; apply (step_Fire_early s h t _ Hfind); simpl; exact Ht.
    + intros t Hnow Hd s'; subst s'; split.
      * apply (step_Fire_interval s h t _ 5000 Hfind eq_refl Hnow); exact Hd.
      * apply rearm_auto.
        -- apply Inv_nextSlide, Inv_set_now, HI.
        -- unfold nextSlide, updateTrackPosition; simpl.
           destruct (isTransitioning s); simpl; exact Ha.
  - apply restart_timers, HI.
Qed.

(** C9.  With at least one image: a click on either button, at time [t]
    in a reachable state,
    removes the auto-advance timer that was pending and arms a new one due
    at [t + 5000]; and whatever happens afterwards (further clicks, timers
    running), no auto-advance timer can run before [t + 5000]. *)
Theorem manual_click_restarts_countdown s b t s1 :
  Reachable s -> step s (Click b t) = Some s1 ->
  (forall h, autoSlideInterval s = Some h ->
             find (has_id h) (timers s1) = None) /\
  (exists h', autoSlideInterval s1 = Some h' /\
              auto_timers s1 = [mkTimer h' (t + 5000) (Some 5000) CbNextSlide]) /\
  (forall evs s2 id t' tm,
     run s1 evs = Some s2 ->
     find (has_id id) (timers s2) = Some tm -> tm_cb tm = CbNextSlide ->
     step s2 (Fire id t') <> None ->
     t + 5000 <= t').
Proof.
  intros HR Hstep; pose proof (Reachable_Inv s HR) as HI.
  pose proof (Inv_step s _ s1 HI Hstep) as HI1.
  assert (Hclick : exists x,
             s1 = restartAutoSlide x /\ Inv x /\ now x = t /\
             autoSlideInterval x = autoSlideInterval s).
  { destruct (step_Click_cases s b t s1 HI Hstep) as [_ [-> | ->]];
      eexists; (split; [reflexivity |]).
    - split; [apply Inv_nextSlide, Inv_set_now, HI |].
      rewrite now_nextSlide; split; [reflexivity |].
      unfold nextSlide, updateTrackPosition; simpl.
      destruct (isTransitioning s); reflexivity.
    - split; [apply Inv_prevSlide, Inv_set_now, HI |].
      rewrite now_prevSlide; split; [reflexivity |].
      unfold prevSlide, updateTrackPosition; simpl.
      destruct (isTransitioning s); reflexivity. }
  destruct Hclick as (x & -> & HIx & Hx & Hax).
  destruct (restart_timers x HIx) as (Ha1 & Hauto & Hn & Hold).
  rewrite Hx in Hauto, Hn.
  split; [intros h E; apply Hold; congruence | split].
  - exists (nextTimerId x); auto.
  - intros evs s2 id t' tm Hrun Hfind Hcb Hfire.
    assert (HT : not_before (t + 5000) (restartAutoSlide x)).
    { split; [lia |]; rewrite Hauto; intros tm' [<- | []]; simpl; lia. }
    destruct (not_before_run _ evs _ s2 HI1 HT Hrun) as [_ [_ Hdue]].
    assert (Hin : In tm (auto_timers s2)).
    { apply find_some in Hfind; destruct Hfind as [Hin _].
      unfold auto_timers; apply filter_In; split; [exact Hin |].
      unfold is_completion; rewrite Hcb; reflexivity. }
    specialize (Hdue tm Hin).
    destruct (Z.lt_ge_cases t' (tm_due tm)) as [Hearly | Hok]; [| lia].
    exfalso; apply Hfire; exact (step_Fire_early s2 id t' tm Hfind Hearly).
Qed.

(** ** More about the reachable states *)

Lemma rendered_updateTrackPosition instant s :
  children (track s) = forEach_index makeImg imagesToShow 0 ->
  isTransitioning s = false \/ instant = true ->
  rendered (updateTrackPosition instant s).
Proof.
  clear len_pos; intros Hc Hgo; unfold updateTrackPosition.
  replace (isTransitioning s && negb instant) with false
    by (destruct Hgo as [-> | ->]; [| rewrite andb_false_r]; reflexivity).
  split; simpl; [exact Hc | reflexivity].
Qed.

Lemma rendered_nextSlide s : rendered s -> rendered (nextSlide s).
Proof.
  clear len_pos; intros Hr; unfold nextSlide.
  destruct (isTransitioning s) eqn:E; [exact Hr |].
  apply rendered_updateTrackPosition; simpl; [apply Hr | auto].
Qed.

Lemma rendered_prevSlide s : rendered s -> rendered (prevSlide s).
Proof.
  clear len_pos; intros Hr; unfold prevSlide.
  destruct (isTransitioning s) eqn:E; [exact Hr |].
  apply rendered_updateTrackPosition; simpl; [apply Hr | auto].
Qed.

Lemma rendered_completion s : rendered s -> rendered (completion s).
Proof.
  clear len_pos; intros Hr; unfold completion; simpl.
  destruct (currentIndex s >=? len * 2);
    [| destruct (currentIndex s <? len)];
    try (apply rendered_updateTrackPosition; simpl; [apply Hr | auto]).
  exact Hr.
Qed.

Lemma rendered_restartAutoSlide s : rendered s -> rendered (restartAutoSlide s).
Proof.
  clear len_pos; unfold restartAutoSlide;
    destruct (autoSlideInterval s); simpl; auto.
Qed.

Lemma rendered_runHandler s h : rendered s -> rendered (runHandler s h).
Proof.
  clear len_pos; intros Hr; destruct h; simpl;
    apply rendered_restartAutoSlide;
    [apply rendered_nextSlide | apply rendered_prevSlide]; exact Hr.
Qed.

Lemma rendered_step s ev s' :
  rendered s -> step s ev = Some s' -> rendered s'.
Proof.
  clear len_pos; intros Hr Hstep; destruct ev as [b t | id t];
    unfold step in Hstep.
  - destruct (t <? now s); [discriminate |].
    destruct (button b s) as [el |]; [| discriminate].
    injection Hstep as <-.
    assert (Hfold : forall l x, rendered x -> rendered (fold_left runHandler l x)).
    { induction l as [| h l IH]; intros x Hx; simpl; [exact Hx |].
      apply IH, rendered_runHandler, Hx. }
    apply Hfold; exact Hr.
  - destruct (find (has_id id) (timers s)) as [tm |]; [| discriminate].
    destruct ((t <? now s) || (t <? tm_due tm)); [discriminate |].
    destruct (tm_repeat tm); injection Hstep as <-;
      destruct (tm_cb tm); simpl;
      try (apply (rendered_completion (set_now t s)); exact Hr);
      try (apply (rendered_completion (unregister id (set_now t s))); exact Hr);
      try (apply (rendered_nextSlide (set_now t s)); exact Hr);
      apply (rendered_nextSlide (unregister id (set_now t s))); exact Hr.
Qed.

Lemma rendered_init d r s :
  initGallerySlideshow d r = Started s -> rendered s.
Proof.
  clear len_pos; unfold initGallerySlideshow.
  destruct (galleryTrack d) as [tr |]; [| discriminate].
  intros Hinit; injection Hinit as <-.
  apply rendered_restartAutoSlide.
  destruct (galleryNext d), (galleryPrev d); split; reflexivity.
Qed.

Lemma Reachable_rendered s : Reachable s -> rendered s.
Proof.
  clear len_pos; induction 1 as [d r s _ Hinit | s ev s' _ IH Hstep].
  - exact (rendered_init d r s Hinit).
  - exact (rendered_step s ev s' IH Hstep).
Qed.

Lemma Inv_busy_timers s :
  Inv s -> isTransitioning s = true ->
  exists h d c dc,
    autoSlideInterval s = Some h /\ c <> h /\
    (timers s = [iv_timer h d; c_timer c dc] \/
     timers s = [c_timer c dc; iv_timer h d]).
Proof.
  intros [Hs _] E.
  destruct Hs as [h d Ha Hf Ht Hh Hi | h d c dc Ha Hf Ht Hh Hc Hn Hi];
    [congruence |].
  exists h, d, c, dc; auto.
Qed.

Lemma Inv_idle_timers s :
  Inv s -> isTransitioning s = false ->
  exists h d, autoSlideInterval s = Some h /\ timers s = [iv_timer h d].
Proof.
  intros [Hs _] E.
  destruct Hs as [h d Ha Hf Ht Hh Hi | h d c dc Ha Hf Ht Hh Hc Hn Hi];
    [| congruence].
  exists h, d; auto.
Qed.

(** X4.  With at least one image, the timer table of a reachable state
    never grows: it holds the auto-advance interval and, exactly while
    [isTransitioning] is set, one completion timeout; the handles are
    distinct. *)
Theorem timer_table_is_bounded s :
  Reachable s ->
  List.length (timers s) = (if isTransitioning s then 2 else 1)%nat /\
  List.length (filter is_completion (timers s)) =
    (if isTransitioning s then 1 else 0)%nat /\
  List.length (auto_timers s) = 1%nat /\
  NoDup (map tm_id (timers s)).
Proof.
  intros HR; pose proof (Reachable_Inv s HR) as HI.
  unfold auto_timers.
  destruct (isTransitioning s) eqn:E.
  - destruct (Inv_busy_timers s HI E) as (h & d & c & dc & _ & Hn & [-> | ->]);
      simpl; repeat split; auto;
      repeat constructor; simpl; intuition congruence.
  - destruct (Inv_idle_timers s HI E) as (h & d & _ & ->);
      simpl; repeat split; auto; repeat constructor; simpl; tauto.
Qed.

Lemma busy_nextSlide s : isTransitioning s = true -> nextSlide s = s.
Proof. intros E; unfold nextSlide; rewrite E; reflexivity. Qed.

Lemma busy_prevSlide s : isTransitioning s = true -> prevSlide s = s.
Proof. intros E; unfold prevSlide; rewrite E; reflexivity. Qed.

Lemma track_restartAutoSlide s : track (restartAutoSlide s) = track s.
Proof. unfold restartAutoSlide; destruct (autoSlideInterval s); reflexivity. Qed.

Lemma busy_step s tm ev s' :
  Inv s -> isTransitioning s = true ->
  find is_completion (timers s) = Some tm ->
  step s ev = Some s' ->
  (forall t, ev <> Fire (tm_id tm) t) ->
  currentIndex s' = currentIndex s /\ isTransitioning s' = true /\
  track s' = track s /\ find is_completion (timers s') = Some tm.
Proof.
  intros HI E Hfc Hstep Hev.
  destruct (Inv_busy_timers s HI E) as (h & d & c & dc & Ha & Hn & Ht).
  assert (Htm : tm = c_timer c dc).
  { destruct Ht as [Ht | Ht]; rewrite Ht in Hfc; simpl in Hfc; congruence. }
  subst tm; simpl in Hev.
  destruct ev as [b t | id t].
  - assert (Hs' : s' = restartAutoSlide (set_now t s)).
    { destruct (step_Click_cases s b t s' HI Hstep) as [_ [-> | ->]];
        [rewrite busy_nextSlide | rewrite busy_prevSlide]; auto. }
    subst s'.
    destruct (restartAutoSlide_vars (set_now t s)) as [-> ->].
    rewrite track_restartAutoSlide; simpl.
    split; [reflexivity | split; [exact E | split; [reflexivity |]]].
    unfold restartAutoSlide; simpl; rewrite Ha; simpl.
    destruct Ht as [-> | ->]; simpl; unfold has_id; simpl; ids; reflexivity.
  - destruct (step_Fire_cases s id t s' HI Hstep)
      as [(Ha' & _ & ->) | (_ & (dc' & Hf & _) & _)].
    + assert (id = h) by congruence; subst id.
      rewrite busy_nextSlide by exact E; simpl.
      split; [reflexivity | split; [exact E | split; [reflexivity |]]].
      destruct Ht as [-> | ->]; simpl; unfold has_id; simpl; ids; reflexivity.
    + exfalso; apply (Hev t); f_equal.
      destruct Ht as [Ht | Ht]; rewrite Ht in Hf; simpl in Hf;
        unfold has_id in Hf; simpl in Hf;
        destruct (Nat.eqb_spec h id); try discriminate;
        destruct (Nat.eqb_spec c id); try discriminate; auto.
Qed.

(** X5.  With at least one image: while a move is in flight, nothing but
    its own completion timeout ends it.  Along any run of clicks and
    auto-advance ticks that does not run that timeout, the index, the
    track and the pending timeout stay as they are and the flag stays
    set; in particular clicks made in the first 1.2 s after
    initialisation are lost. *)
Theorem move_in_flight_is_not_disturbed s tm evs s' :
  Reachable s -> isTransitioning s = true ->
  find is_completion (timers s) = Some tm ->
  run s evs = Some s' ->
  (forall t, ~ In (Fire (tm_id tm) t) evs) ->
  currentIndex s' = currentIndex s /\ isTransitioning s' = true /\
  track s' = track s /\ find is_completion (timers s') = Some tm.
Proof.
  intros HR; pose proof (Reachable_Inv s HR) as HI; clear HR.
  revert s HI; induction evs as [| ev evs IH]; intros s HI E Hfc Hrun Hev;
    simpl in Hrun.
  - injection Hrun as <-; auto.
  - destruct (step s ev) as [s1 |] eqn:Hstep; [| discriminate].
    destruct (busy_step s tm ev s1 HI E Hfc Hstep) as (Hi1 & Hf1 & Ht1 & Hc1).
    { intros t ->; apply (Hev t); left; reflexivity. }
    destruct (IH s1 (Inv_step s ev s1 HI Hstep) Hf1 Hc1 Hrun)
      as (Hi2 & Hf2 & Ht2 & Hc2).
    { intros t Hin; apply (Hev t); right; exact Hin. }
    rewrite Hi2, Ht2; auto.
Qed.

Lemma settle_reachable fuel : forall s s',
  Reachable s -> settle fuel s = Some s' -> Reachable s'.
Proof.
  clear len_pos; induction fuel as [| fuel IH]; intros s s' HR Hs;
    cbn [settle] in Hs; destruct (find is_completion (timers s)) as [tm |];
    try discriminate; try (injection Hs as <-; exact HR).
  destruct (step s (Fire (tm_id tm) (Z.max (now s) (tm_due tm))))
    as [s1 |] eqn:Hstep; [| discriminate].
  exact (IH s1 s' (reach_step s _ s1 HR Hstep) Hs).
Qed.

(** X7.  With at least one image, waiting always ends: from any reachable
    state, running the pending completion callbacks stops after at most
    two of them, in a reachable state with no move in flight, no
    completion timeout left and the index in the middle copy. *)
Theorem every_move_settles s fuel :
  Reachable s -> (2 <= fuel)%nat ->
  exists s',
    settle fuel s = Some s' /\ Reachable s' /\
    isTransitioning s' = false /\
    find is_completion (timers s') = None /\
    len <= currentIndex s' < 2 * len.
Proof.
  intros HR Hfuel; pose proof (Reachable_Inv s HR) as HI.
  destruct (settle_spec s fuel HI Hfuel) as (s' & Hs & HI' & Hf' & _).
  exists s'; split; [exact Hs | split; [exact (settle_reachable fuel s s' HR Hs) |]].
  split; [exact Hf' | split; [exact (Inv_pending_idle s' HI' Hf') |]].
  exact (Shape_idle s' (proj1 HI') Hf').
Qed.

Lemma advance_settled s fuel :
  Inv s -> isTransitioning s = false -> (2 <= fuel)%nat ->
  exists s',
    settle fuel (nextSlide s) = Some s' /\ Inv s' /\
    isTransitioning s' = false /\
    currentIndex s' = len + (currentIndex s - len + 1) mod len.
Proof.
  intros HI E Hfuel.
  pose proof (Shape_idle s (proj1 HI) E) as Hr.
  destruct (nextSlide_idle s E) as [Hi1 _].
  destruct (settle_spec (nextSlide s) fuel (Inv_nextSlide s HI) Hfuel)
    as (s' & Hs & HI' & Hf' & Hhi & _ & Hmid).
  exists s'; split; [exact Hs | split; [exact HI' | split; [exact Hf' |]]].
  destruct (Z.lt_ge_cases (currentIndex s + 1) (2 * len)).
  - rewrite Hmid by lia; rewrite Z.mod_small by lia; lia.
  - rewrite Hhi by lia.
    replace (currentIndex s - len + 1) with len by lia.
    rewrite Z_mod_same_full; lia.
Qed.

(** X6.  With at least one image: from a reachable state with no move in
    flight, [k] forward moves, each waited for, end at index
    [len + (i - len + k) mod len], where [i] is the index at the start; so
    [len] of them bring the carousel back to the image it started from. *)
Theorem forward_moves_cycle s fuel :
  Reachable s -> isTransitioning s = false -> (2 <= fuel)%nat ->
  (forall k, exists s',
      advances fuel k s = Some s' /\ isTransitioning s' = false /\
      currentIndex s' = len + (currentIndex s - len + Z.of_nat k) mod len) /\
  (exists s', advances fuel (List.length galleryImages) s = Some s' /\
              currentIndex s' = currentIndex s).
Proof.
  intros HR E Hfuel; pose proof (Reachable_Inv s HR) as HI; clear HR.
  assert (Hall : forall k x, Inv x -> isTransitioning x = false ->
            exists s', advances fuel k x = Some s' /\ isTransitioning s' = false /\
              currentIndex s' = len + (currentIndex x - len + Z.of_nat k) mod len).
  { induction k as [| k IH]; intros x HIx Ex.
    - exists x; pose proof (Shape_idle x (proj1 HIx) Ex).
      simpl; rewrite Z.add_0_r, Z.mod_small by lia.
      repeat split; auto; lia.
    - destruct (advance_settled x fuel HIx Ex Hfuel) as (x1 & Hs1 & HI1 & E1 & Hi1).
      destruct (IH x1 HI1 E1) as (s' & Hs' & Ef & Hi').
      exists s'; simpl; rewrite Hs1.
      split; [exact Hs' | split; [exact Ef |]].
      rewrite Hi', Hi1.
      replace (len + (currentIndex x - len + 1) mod len - len)
        with ((currentIndex x - len + 1) mod len) by lia.
      rewrite Zplus_mod_idemp_l; f_equal; f_equal; lia. }
  split; [intros k; exact (Hall k s HI E) |].
  destruct (Hall (List.length galleryImages) s HI E) as (s' & Hs' & _ & Hi').
  exists s'; split; [exact Hs' |].
  pose proof (Shape_idle s (proj1 HI) E).
  fold len in Hi'; rewrite Hi'.
  replace (currentIndex s - len + len) with (currentIndex s - len + 1 * len) by lia.
  rewrite Z_mod_plus_full, Z.mod_small by lia; lia.
Qed.

(** X9.  With at least one image, one event is at most one step.  In a
    reachable state a click on the next (previous) button adds
    (subtracts) exactly one to the index when no move is in flight and
    leaves the index alone otherwise; a tick of the auto-advance interval
    adds one or, during a move, nothing.  Either way a move is in flight
    afterwards. *)
Theorem one_event_one_step s t s' :
  Reachable s ->
  (step s (Click BtnNext t) = Some s' ->
   currentIndex s' =
     (if isTransitioning s then currentIndex s else currentIndex s + 1) /\
   isTransitioning s' = true) /\
  (step s (Click BtnPrev t) = Some s' ->
   currentIndex s' =
     (if isTransitioning s then currentIndex s else currentIndex s - 1) /\
   isTransitioning s' = true) /\
  (forall h, autoSlideInterval s = Some h ->
   step s (Fire h t) = Some s' ->
   currentIndex s' =
     (if isTransitioning s then currentIndex s else currentIndex s + 1) /\
   isTransitioning s' = true).
Proof.
  intros HR; pose proof (Reachable_Inv s HR) as HI.
  destruct HI as [Hs [Hp Hn]].
  assert (Hnext : forall x, isTransitioning x = isTransitioning s ->
            currentIndex x = currentIndex s ->
            currentIndex (nextSlide x) =
              (if isTransitioning s then currentIndex s else currentIndex s + 1) /\
            isTransitioning (nextSlide x) = true).
  { intros x Ef Ei; destruct (isTransitioning s) eqn:E.
    - rewrite busy_nextSlide by exact Ef; auto.
    - destruct (nextSlide_idle x Ef) as [-> ->]; rewrite Ei; auto. }
  assert (Hprev : forall x, isTransitioning x = isTransitioning s ->
            currentIndex x = currentIndex s ->
            currentIndex (prevSlide x) =
              (if isTransitioning s then currentIndex s else currentIndex s - 1) /\
            isTransitioning (prevSlide x) = true).
  { intros x Ef Ei; destruct (isTransitioning s) eqn:E.
    - rewrite busy_prevSlide by exact Ef; auto.
    - destruct (prevSlide_idle x Ef) as [-> ->]; rewrite Ei; auto. }
  split; [| split].
  - unfold step; destruct (t <? now s); [discriminate |]; simpl.
    destruct (nextButton s) as [el |] eqn:Eb; [| discriminate].
    rewrite (Hn el eq_refl); simpl; intros Hstep; injection Hstep as <-.
    destruct (restartAutoSlide_vars (nextSlide (set_now t s))) as [-> ->].
    apply Hnext; reflexivity.
  - unfold step; destruct (t <? now s); [discriminate |]; simpl.
    destruct (prevButton s) as [el |] eqn:Eb; [| discriminate].
    rewrite (Hp el eq_refl); simpl; intros Hstep; injection Hstep as <-.
    destruct (restartAutoSlide_vars (prevSlide (set_now t s))) as [-> ->].
    apply Hprev; reflexivity.
  - intros h Ha Hstep.
    destruct (Inv_handle s (conj Hs (conj Hp Hn))) as (h' & d & Ha' & Hfind & _).
    assert (h' = h) by congruence; subst h'.
    unfold step in Hstep; rewrite Hfind in Hstep; simpl in Hstep.
    destruct ((t <? now s) || (t <? d)); [discriminate |].
    injection Hstep as <-; simpl.
    apply Hnext; reflexivity.
Qed.

End Carousel.

(** ** Rendering *)

Lemma nth_error_forEach_index {A B : Type} (f : A -> nat -> B) (l : list A) :
  forall index k,
    nth_error (forEach_index f l index) k =
    option_map (fun a => f a (index + k)%nat) (nth_error l k).
Proof.
  induction l as [| a l IH]; intros index k; destruct k; simpl; auto.
  - rewrite Nat.add_0_r; reflexivity.
  - rewrite IH, Nat.add_succ_r; reflexivity.
Qed.

Lemma middle_copy_starts_at_len (galleryImages : list string) :
  nth_error (imagesToShow galleryImages) (List.length galleryImages) =
  nth_error (galleryImages ++ galleryImages) 0.
Proof.
  unfold imagesToShow.
  rewrite nth_error_app2 by lia; rewrite Nat.sub_diag; reflexivity.
Qed.

Lemma pristine_fullPage : pristine fullPage pageLoad.
Proof.
  repeat split; simpl; intros b E; injection E as <-; reflexivity.
Qed.

Lemma site_len : len siteGalleryImages = 5.
Proof. reflexivity. Qed.

Lemma reach_site_loaded s0 :
  initGallerySlideshow siteGalleryImages fullPage pageLoad = Started s0 ->
  Reachable siteGalleryImages s0.
Proof. intros E; exact (reach_init _ _ _ _ pristine_fullPage E). Qed.

Lemma reach_site_settled s0 s5 :
  initGallerySlideshow siteGalleryImages fullPage pageLoad = Started s0 ->
  step siteGalleryImages s0 (Fire 1 1200) = Some s5 ->
  Reachable siteGalleryImages s5.
Proof.
  intros E0 E5; exact (reach_step _ _ _ _ (reach_site_loaded s0 E0) E5).
Qed.

Ltac with_loaded k :=
  let r := eval vm_compute in
             (initGallerySlideshow siteGalleryImages fullPage pageLoad) in
  match r with Started ?s0 => k s0 end.

Ltac with_settled k :=
  with_loaded ltac:(fun s0 =>
    let r := eval vm_compute in (step siteGalleryImages s0 (Fire 1 1200)) in
    match r with Some ?s5 => k s0 s5 end).

(** ** Wrap check and initialisation *)

(** C2.  The completion callback, on index [i] with [N] images: if
    [i >= 2N] it sets the index to [i - N] and re-renders instantly
    (transition [none], offset of the new index, a timeout of delay 0);
    otherwise if [i < N] it sets the index to [N + i] and re-renders
    instantly; otherwise it only clears the flag.  With the five images of
    the site, from the settled start index 5, one [prevSlide] gives 4 and
    the completion callback corrects it to 9, which is where the carousel
    settles. *)
Theorem completion_wrap_check (galleryImages : list string) (s : State) :
  let N := len galleryImages in
  let s' := completion galleryImages s in
  (2 * N <= currentIndex s ->
   currentIndex s' = currentIndex s - N /\
   style_transition (track s') = "none"%string /\
   style_transform (track s') = translateX_css (- ((currentIndex s - N) * 100)) /\
   timers s' = (timers s ++ [c_timer (nextTimerId s) (now s + 0)])%list) /\
  (currentIndex s < N ->
   currentIndex s' = N + currentIndex s /\
   style_transition (track s') = "none"%string /\
   style_transform (track s') = translateX_css (- ((N + currentIndex s) * 100)) /\
   timers s' = (timers s ++ [c_timer (nextTimerId s) (now s + 0)])%list) /\
  (N <= currentIndex s < 2 * N -> s' = set_isTransitioning false s) /\
  (exists s0 s5 s9 s9',
     initGallerySlideshow siteGalleryImages fullPage pageLoad = Started s0 /\
     step siteGalleryImages s0 (Fire 1 1200) = Some s5 /\
     (currentIndex s5 = 5 /\ isTransitioning s5 = false) /\
     currentIndex (prevSlide s5) = 4 /\
     step siteGalleryImages (prevSlide s5) (Fire 3 2400) = Some s9 /\
     currentIndex s9 = 9 /\
     settle siteGalleryImages 2 (prevSlide s5) = Some s9' /\
     (currentIndex s9' = 9 /\ isTransitioning s9' = false)).
Proof.
  intros N s'; subst N s'; split; [| split; [| split]].
  - intros Hr; rewrite completion_past_end by exact Hr.
    destruct (instant_render (currentIndex s - len galleryImages) s)
      as (? & _ & ? & ? & ?); auto.
  - intros Hr; rewrite completion_before_start by exact Hr.
    destruct (instant_render (len galleryImages + currentIndex s) s)
      as (? & _ & ? & ? & ?); auto.
  - apply completion_in_range.
  - let r := eval vm_compute in
               (initGallerySlideshow siteGalleryImages fullPage pageLoad) in
    match r with
    | Started ?s0 =>
        exists s0;
        let r5 := eval vm_compute in (step siteGalleryImages s0 (Fire 1 1200)) in
        match r5 with
        | Some ?s5 =>
            exists s5;
            let r9 := eval vm_compute in
                        (step siteGalleryImages (prevSlide s5) (Fire 3 2400)) in
            let r9' := eval vm_compute in
                         (settle siteGalleryImages 2 (prevSlide s5)) in
            match r9 with
            | Some ?s9 =>
                match r9' with Some ?s9' => exists s9, s9' end
            end
        end
    end.
    repeat split; vm_compute; reflexivity.
Qed.

(** C4, as the code has it.  With at least one image and the track
    present, [initGallerySlideshow] sets the index to [len] and makes one
    positioning call at once, in the animated mode that is the default of
    [updateTrackPosition]: the transition is the 1.2 s one,
    [isTransitioning] is set, and the one completion timeout is due
    1200 ms later.  The offset is [-(len * 100)%], which shows entry [len]
    of the rendered sequence, and that entry is the first image of
    [galleryImages], labelled [Gallery image 1]. *)
Theorem init_positions_at_first_original
        (galleryImages : list string) (d : Document) (r : Runtime) (tr : Track) :
  1 <= len galleryImages -> galleryTrack d = Some tr ->
  exists s first,
    initGallerySlideshow galleryImages d r = Started s /\
    currentIndex s = len galleryImages /\
    style_transform (track s) = translateX_css (- (len galleryImages * 100)) /\
    style_transition (track s) = smooth /\
    isTransitioning s = true /\
    timers s = (table r ++ [c_timer (freshId r) (clock r + 1200);
                            iv_timer (S (freshId r)) (clock r + 5000)])%list /\
    nth_error galleryImages 0 = Some first /\
    nth_error (imagesToShow galleryImages) (List.length galleryImages) = Some first /\
    nth_error (children (track s)) (List.length galleryImages) =
      Some (mkImg first "Gallery image 1" "gallery-image").
Proof.
  intros Hlen Htr.
  destruct galleryImages as [| first rest] eqn:Eg;
    [unfold len in Hlen; simpl in Hlen; lia |].
  rewrite <- Eg in *.
  assert (Hfirst : nth_error galleryImages 0 = Some first)
    by (rewrite Eg; reflexivity).
  assert (Hmid : nth_error (imagesToShow galleryImages)
                           (List.length galleryImages) = Some first).
  { rewrite middle_copy_starts_at_len, Eg; reflexivity. }
  unfold initGallerySlideshow; rewrite Htr.
  eexists; exists first; split; [reflexivity |].
  unfold updateTrackPosition; simpl.
  assert (Hchild :
    nth_error (forEach_index (makeImg galleryImages)
                             (imagesToShow galleryImages) 0)
              (List.length galleryImages) =
    Some (mkImg first "Gallery image 1" "gallery-image")).
  { rewrite nth_error_forEach_index, Hmid; simpl; unfold makeImg.
    fold (len galleryImages); rewrite Z_mod_same_full; reflexivity. }
  destruct (galleryNext d), (galleryPrev d); simpl;
    rewrite <- app_assoc; simpl; repeat split; auto.
Qed.

(** C4 as first stated does not hold: the positioning made by
    [initGallerySlideshow] is not the instant one.  On the site's page the
    transition style after initialisation is the animated one, not
    [none]. *)
Lemma init_positioning_is_animated :
  ~ (forall s,
       initGallerySlideshow siteGalleryImages fullPage pageLoad = Started s ->
       currentIndex s = len siteGalleryImages /\
       style_transition (track s) = "none"%string /\
       style_transform (track s) =
         translateX_css (- (len siteGalleryImages * 100))).
Proof.
  intros H.
  with_loaded ltac:(fun s0 =>
    assert (E : initGallerySlideshow siteGalleryImages fullPage pageLoad =
                Started s0) by (vm_compute; reflexivity);
    destruct (H s0 E) as (_ & Hnone & _)).
  vm_compute in Hnone; discriminate.
Qed.

(** ** The statements at the site's page *)

Lemma index_settles_in_middle_copy_witness :
  1 <= len siteGalleryImages /\
  (forall s, Reachable siteGalleryImages s ->
     isTransitioning s = false -> 5 <= currentIndex s < 10) /\
  (exists s, Reachable siteGalleryImages s /\ isTransitioning s = true /\
             currentIndex s = 4) /\
  (exists s, Reachable siteGalleryImages s /\ isTransitioning s = true /\
             currentIndex s = 10).
Proof.
  assert (Hlen : 1 <= len siteGalleryImages) by (rewrite site_len; lia).
  destruct (index_settles_in_middle_copy siteGalleryImages Hlen)
    as (Hall & Hlow & Hhigh).
  rewrite site_len in *.
  split; [lia | split; [| split; [exact Hlow | exact Hhigh]]].
  intros s HR; exact (proj1 (proj2 (Hall s HR))).
Defined.

Lemma advance_dropped_while_transitioning_witness :
  exists s0,
    initGallerySlideshow siteGalleryImages fullPage pageLoad = Started s0 /\
    isTransitioning s0 = true /\
    nextSlide s0 = s0 /\ prevSlide s0 = s0.
Proof.
  with_loaded ltac:(fun s0 => exists s0).
  split; [vm_compute; reflexivity | split; [reflexivity |]].
  apply advance_dropped_while_transitioning; reflexivity.
Defined.

Lemma correction_stops_after_one_adjustment_witness :
  let s := mkState 10 (Some 2%nat) true (mkTrack [] "" "") None None 6000
                   [iv_timer 2 10000] 4 in
  let s1 := completion siteGalleryImages s in
  1 <= len siteGalleryImages /\
  len siteGalleryImages - 1 <= currentIndex s <= 2 * len siteGalleryImages /\
  currentIndex s1 = 5 /\
  isTransitioning s1 = true /\
  timers s1 = [iv_timer 2 10000; c_timer 4 6000] /\
  completion siteGalleryImages
    (unregister 4 (set_now 6000 s1)) =
  set_isTransitioning false (unregister 4 (set_now 6000 s1)).
Proof.
  intros s s1.
  assert (Hlen : 1 <= len siteGalleryImages) by (rewrite site_len; lia).
  assert (Hr : len siteGalleryImages - 1 <= currentIndex s
               <= 2 * len siteGalleryImages) by (rewrite site_len; simpl; lia).
  destruct (correction_stops_after_one_adjustment siteGalleryImages Hlen s Hr)
    as (_ & _ & _ & Hstop).
  split; [exact Hlen | split; [exact Hr |]].
  split; [reflexivity | split; [reflexivity | split; [reflexivity |]]].
  apply Hstop; reflexivity.
Defined.

Lemma advance_round_trip_witness :
  exists s0 s5,
    initGallerySlideshow siteGalleryImages fullPage pageLoad = Started s0 /\
    step siteGalleryImages s0 (Fire 1 1200) = Some s5 /\
    1 <= len siteGalleryImages /\
    Reachable siteGalleryImages s5 /\
    isTransitioning s5 = false /\
    (2 <= 2)%nat /\
    (exists s1 s2,
       settle siteGalleryImages 2 (nextSlide s5) = Some s1 /\
       settle siteGalleryImages 2 (prevSlide s1) = Some s2 /\
       isTransitioning s2 = false /\ currentIndex s2 = currentIndex s5) /\
    (exists s1 s2,
       settle siteGalleryImages 2 (prevSlide s5) = Some s1 /\
       settle siteGalleryImages 2 (nextSlide s1) = Some s2 /\
       isTransitioning s2 = false /\ currentIndex s2 = currentIndex s5).
Proof.
  with_settled ltac:(fun s0 s5 => exists s0, s5).
  assert (Hlen : 1 <= len siteGalleryImages) by (rewrite site_len; lia).
  split; [vm_compute; reflexivity | split; [vm_compute; reflexivity |]].
  split; [exact Hlen |].
  match goal with
  | |- Reachable _ ?s5 /\ _ =>
      assert (HR : Reachable siteGalleryImages s5)
        by (eapply reach_site_settled; vm_compute; reflexivity);
      split; [exact HR | split; [reflexivity | split; [lia |]]];
      exact (advance_round_trip siteGalleryImages Hlen s5 2 HR eq_refl
                                (le_n 2))
  end.
Defined.

Lemma wrap_correction_idempotent_witness :
  let s := mkState 7 (Some 2%nat) true (mkTrack [] "" "") None None 6000
                   [iv_timer 2 10000] 4 in
  len siteGalleryImages <= currentIndex s < 2 * len siteGalleryImages /\
  completion siteGalleryImages s = set_isTransitioning false s /\
  currentIndex (completion siteGalleryImages s) = 7 /\
  completion siteGalleryImages (completion siteGalleryImages s) =
  completion siteGalleryImages s.
Proof.
  intros s.
  assert (Hr : len siteGalleryImages <= currentIndex s
               < 2 * len siteGalleryImages) by (rewrite site_len; simpl; lia).
  split; [exact Hr |].
  exact (wrap_correction_idempotent siteGalleryImages s Hr).
Defined.

Lemma init_without_track_witness :
  galleryTrack barePage = None /\
  initGallerySlideshow siteGalleryImages barePage pageLoad =
  NoGallery barePage pageLoad.
Proof.
  split; [reflexivity |].
  apply init_without_track; reflexivity.
Defined.

Lemma auto_advance_period_witness :
  exists s0,
    initGallerySlideshow siteGalleryImages fullPage pageLoad = Started s0 /\
    1 <= len siteGalleryImages /\
    Reachable siteGalleryImages s0 /\
    auto_timers s0 = [mkTimer 2 5000 (Some 5000) CbNextSlide] /\
    auto_timers (restartAutoSlide s0) =
    [mkTimer (nextTimerId s0) (now s0 + 5000) (Some 5000) CbNextSlide].
Proof.
  with_loaded ltac:(fun s0 => exists s0).
  assert (Hlen : 1 <= len siteGalleryImages) by (rewrite site_len; lia).
  split; [vm_compute; reflexivity | split; [exact Hlen |]].
  match goal with
  | |- Reachable _ ?s0 /\ _ =>
      assert (HR : Reachable siteGalleryImages s0)
        by (apply reach_site_loaded; vm_compute; reflexivity);
      split; [exact HR | split; [reflexivity |]];
      exact (proj2 (proj2 (auto_advance_period siteGalleryImages Hlen s0 HR)))
  end.
Defined.

Lemma manual_click_restarts_countdown_witness :
  exists s0 s1,
    initGallerySlideshow siteGalleryImages fullPage pageLoad = Started s0 /\
    1 <= len siteGalleryImages /\
    Reachable siteGalleryImages s0 /\
    step siteGalleryImages s0 (Click BtnNext 300) = Some s1 /\
    find (has_id 2%nat) (timers s1) = None /\
    (forall evs s2 id t' tm,
       run siteGalleryImages s1 evs = Some s2 ->
       find (has_id id) (timers s2) = Some tm -> tm_cb tm = CbNextSlide ->
       step siteGalleryImages s2 (Fire id t') <> None ->
       300 + 5000 <= t').
Proof.
  with_loaded ltac:(fun s0 =>
    exists s0;
    let r := eval vm_compute in (step siteGalleryImages s0 (Click BtnNext 300)) in
    match r with Some ?s1 => exists s1 end).
  assert (Hlen : 1 <= len siteGalleryImages) by (rewrite site_len; lia).
  split; [vm_compute; reflexivity | split; [exact Hlen |]].
  match goal with
  | |- Reachable _ ?s0 /\ step _ _ _ = Some ?s1 /\ _ =>
      assert (HR : Reachable siteGalleryImages s0)
        by (apply reach_site_loaded; vm_compute; reflexivity);
      assert (Hstep : step siteGalleryImages s0 (Click BtnNext 300) = Some s1)
        by (vm_compute; reflexivity);
      split; [exact HR | split; [exact Hstep |]];
      destruct (manual_click_restarts_countdown
                  siteGalleryImages Hlen s0 BtnNext 300 s1 HR Hstep)
        as (Hold & _ & Hlater);
      split; [apply Hold; reflexivity | exact Hlater]
  end.
Defined.

Lemma init_positions_at_first_original_witness :
  1 <= len siteGalleryImages /\
  galleryTrack fullPage = Some (mkTrack [] "" "") /\
  exists s first,
    initGallerySlideshow siteGalleryImages fullPage pageLoad = Started s /\
    currentIndex s = len siteGalleryImages /\
    style_transform (track s) = translateX_css (- (len siteGalleryImages * 100)) /\
    style_transition (track s) = smooth /\
    isTransitioning s = true /\
    timers s = (table pageLoad ++ [c_timer (freshId pageLoad) (clock pageLoad + 1200);
                                   iv_timer (S (freshId pageLoad))
                                            (clock pageLoad + 5000)])%list /\
    nth_error siteGalleryImages 0 = Some first /\
    nth_error (imagesToShow siteGalleryImages)
              (List.length siteGalleryImages) = Some first /\
    nth_error (children (track s)) (List.length siteGalleryImages) =
      Some (mkImg first "Gallery image 1" "gallery-image").
Proof.
  assert (Hlen : 1 <= len siteGalleryImages) by (rewrite site_len; lia).
  split; [exact Hlen | split; [reflexivity |]].
  exact (init_positions_at_first_original
           siteGalleryImages fullPage pageLoad (mkTrack [] "" "")%string
           Hlen eq_refl).
Defined.

(** ** What the track shows *)

Lemma nth_error_three_copies (A : Type) (l : list A) i :
  (i < 3 * List.length l)%nat ->
  nth_error (l ++ l ++ l) i = nth_error l (i mod List.length l).
Proof.
  intros Hi; set (n := List.length l) in *.
  destruct (Nat.lt_ge_cases i n) as [H1 | H1].
  - rewrite nth_error_app1 by exact H1; rewrite Nat.mod_small by exact H1.
    reflexivity.
  - rewrite nth_error_app2 by exact H1; fold n.
    destruct (Nat.lt_ge_cases (i - n) n) as [H2 | H2].
    + rewrite nth_error_app1 by exact H2.
      rewrite <- (Nat.mod_unique i n 1 (i - n)); [reflexivity | lia | lia].
    + rewrite nth_error_app2 by exact H2; fold n.
      rewrite <- (Nat.mod_unique i n 2 (i - n - n)); [reflexivity | lia | lia].
Qed.

Lemma length_forEach_index {A B : Type} (f : A -> nat -> B) (l : list A) :
  forall index, List.length (forEach_index f l index) = List.length l.
Proof. induction l as [| a l IH]; intros index; simpl; auto. Qed.

Lemma makeImg_period (galleryImages : list string) imageSrc i :
  makeImg galleryImages imageSrc (i + List.length galleryImages) =
  makeImg galleryImages imageSrc i.
Proof.
  unfold makeImg; rewrite Nat2Z.inj_add; fold (len galleryImages).
  replace (Z.of_nat i + len galleryImages)
    with (Z.of_nat i + 1 * len galleryImages) by lia.
  rewrite Z_mod_plus_full; reflexivity.
Qed.

Lemma rendered_nth (galleryImages : list string) i :
  (i < 3 * List.length galleryImages)%nat ->
  nth_error (forEach_index (makeImg galleryImages)
                           (imagesToShow galleryImages) 0) i =
  option_map (fun imageSrc => makeImg galleryImages imageSrc i)
             (nth_error galleryImages (i mod List.length galleryImages)).
Proof.
  intros Hi; rewrite nth_error_forEach_index; unfold imagesToShow.
  rewrite nth_error_three_copies by exact Hi; reflexivity.
Qed.

Lemma rendered_nth_period (galleryImages : list string) i :
  (i < 2 * List.length galleryImages)%nat ->
  nth_error (forEach_index (makeImg galleryImages)
                           (imagesToShow galleryImages) 0)
            (i + List.length galleryImages) =
  nth_error (forEach_index (makeImg galleryImages)
                           (imagesToShow galleryImages) 0) i.
Proof.
  intros Hi; rewrite !rendered_nth by lia.
  assert (Hmod : ((i + List.length galleryImages) mod List.length galleryImages
                  = i mod List.length galleryImages)%nat).
  { replace (i + List.length galleryImages)%nat
      with (i + 1 * List.length galleryImages)%nat by lia.
    apply Nat.Div0.mod_add. }
  rewrite Hmod.
  destruct (nth_error galleryImages (i mod List.length galleryImages));
    simpl; [rewrite makeImg_period |]; reflexivity.
Qed.

Lemma rendered_item (galleryImages : list string) i :
  (i < 3 * List.length galleryImages)%nat ->
  exists imageSrc,
    nth_error galleryImages (i mod List.length galleryImages) = Some imageSrc /\
    nth_error (forEach_index (makeImg galleryImages)
                             (imagesToShow galleryImages) 0) i =
      Some (mkImg imageSrc
              ("Gallery image " ++
               string_of_Z (Z.of_nat (i mod List.length galleryImages) + 1))
              "gallery-image").
Proof.
  intros Hi; set (n := List.length galleryImages) in *.
  assert (Hn : (i mod n < n)%nat) by (apply Nat.mod_upper_bound; lia).
  destruct (nth_error galleryImages (i mod n)) as [imageSrc |] eqn:E;
    [| apply nth_error_None in E; fold n in E; lia].
  exists imageSrc; split; [reflexivity |].
  rewrite rendered_nth by exact Hi; fold n; rewrite E; simpl.
  unfold makeImg, len; fold n.
  rewrite Nat2Z.inj_mod; reflexivity.
Qed.

(** X1.  [initializeTrack] replaces the track's content by [3 * len]
    images and leaves its style alone.  The image at position [i] has the
    source [galleryImages[i mod len]], the label
    [Gallery image (i mod len + 1)] and the class [gallery-image]; so the
    images at positions [i] and [i + len] are the same, label included. *)
Theorem track_holds_three_copies (galleryImages : list string) (s : State) :
  let n := List.length galleryImages in
  let kids := children (track (initializeTrack galleryImages s)) in
  List.length kids = (3 * n)%nat /\
  style_transition (track (initializeTrack galleryImages s)) =
    style_transition (track s) /\
  style_transform (track (initializeTrack galleryImages s)) =
    style_transform (track s) /\
  (forall i, (i < 3 * n)%nat ->
     exists imageSrc,
       nth_error galleryImages (i mod n) = Some imageSrc /\
       nth_error kids i =
         Some (mkImg imageSrc
                 ("Gallery image " ++ string_of_Z (Z.of_nat (i mod n) + 1))
                 "gallery-image")) /\
  (forall i, (i < 2 * n)%nat -> nth_error kids (i + n) = nth_error kids i).
Proof.
  intros n kids; subst kids; simpl.
  split; [| split; [reflexivity | split; [reflexivity | split]]].
  - rewrite length_forEach_index; unfold imagesToShow.
    rewrite !length_app; fold n; lia.
  - intros i Hi; exact (rendered_item galleryImages i Hi).
  - intros i Hi; apply rendered_nth_period; exact Hi.
Qed.

(** X2.  With at least one image, in every reachable state the track
    still holds the images that [initializeTrack] rendered, its offset is
    the one of the current index, and the index points at one of these
    images: the one whose source is [galleryImages[index mod len]].  The
    carousel never shows an empty slot. *)
Theorem offset_follows_index (galleryImages : list string) (s : State) :
  1 <= len galleryImages -> Reachable galleryImages s ->
  let n := List.length galleryImages in
  let i := Z.to_nat (currentIndex s) in
  children (track s) =
    forEach_index (makeImg galleryImages) (imagesToShow galleryImages) 0 /\
  style_transform (track s) = translateX_css (- (currentIndex s * 100)) /\
  0 <= currentIndex s < 3 * len galleryImages /\
  exists imageSrc,
    nth_error galleryImages (i mod n) = Some imageSrc /\
    nth_error (children (track s)) i =
      Some (mkImg imageSrc
              ("Gallery image " ++ string_of_Z (Z.of_nat (i mod n) + 1))
              "gallery-image").
Proof.
  intros Hlen HR n i.
  destruct (Reachable_rendered galleryImages s HR) as [Hkids Hoff].
  pose proof (Shape_range galleryImages s
                (proj1 (Reachable_Inv galleryImages Hlen s HR))) as Hr.
  split; [exact Hkids | split; [exact Hoff | split; [lia |]]].
  assert (Hi : (i < 3 * n)%nat) by (unfold len in *; subst i n; lia).
  destruct (rendered_item galleryImages i Hi)
    as (imageSrc & Hsrc & Hnth).
  exists imageSrc; split; [exact Hsrc |].
  rewrite Hkids; exact Hnth.
Qed.


(** ** An empty image list *)

Lemma empty_runCallback cb s :
  isTransitioning s = true /\ currentIndex s = 0 ->
  isTransitioning (runCallback [] cb s) = true /\
  currentIndex (runCallback [] cb s) = 0.
Proof.
  intros [Hf Hi]; destruct cb; cbn [runCallback].
  - rewrite completion_past_end by (rewrite Hi; reflexivity).
    destruct (instant_render (currentIndex s - len []) s) as (-> & -> & _).
    rewrite Hi; split; reflexivity.
  - rewrite busy_nextSlide by exact Hf; auto.
Qed.

Lemma empty_runHandler s h :
  isTransitioning s = true /\ currentIndex s = 0 ->
  isTransitioning (runHandler s h) = true /\
  currentIndex (runHandler s h) = 0.
Proof.
  intros [Hf Hi]; destruct h; cbn [runHandler];
    [rewrite busy_nextSlide by exact Hf | rewrite busy_prevSlide by exact Hf];
    destruct (restartAutoSlide_vars s) as [-> ->]; auto.
Qed.

(** X8.  With no image at all the carousel never comes to rest.  In every
    reachable state the index is 0 and [isTransitioning] is set, so every
    [nextSlide] and [prevSlide] is dropped; and each completion callback
    corrects again and arms one more timeout of delay 0. *)
Theorem empty_gallery_never_settles (s : State) :
  Reachable [] s ->
  isTransitioning s = true /\ currentIndex s = 0 /\
  nextSlide s = s /\ prevSlide s = s /\
  isTransitioning (completion [] s) = true /\
  timers (completion [] s) =
    (timers s ++ [c_timer (nextTimerId s) (now s + 0)])%list.
Proof.
  intros HR.
  assert (HP : isTransitioning s = true /\ currentIndex s = 0).
  { induction HR as [d r s _ Hinit | s ev s' _ IH Hstep].
    - unfold initGallerySlideshow in Hinit.
      destruct (galleryTrack d); [| discriminate].
      injection Hinit as <-.
      match goal with
      | |- isTransitioning (restartAutoSlide ?x) = _ /\ _ =>
          destruct (restartAutoSlide_vars x) as [-> ->]
      end.
      destruct (galleryNext d), (galleryPrev d); split; reflexivity.
    - destruct ev as [b t | id t]; unfold step in Hstep.
      + destruct (t <? now s); [discriminate |].
        destruct (button b s) as [el |]; [| discriminate].
        injection Hstep as <-.
        assert (Hfold : forall l x,
                  isTransitioning x = true /\ currentIndex x = 0 ->
                  isTransitioning (fold_left (runHandler) l x) = true /\
                  currentIndex (fold_left (runHandler) l x) = 0).
        { induction l as [| h l IHl]; intros x Hx; simpl; [exact Hx |].
          apply IHl, empty_runHandler, Hx. }
        apply Hfold; exact IH.
      + destruct (find (has_id id) (timers s)) as [tm |]; [| discriminate].
        destruct ((t <? now s) || (t <? tm_due tm)); [discriminate |].
        destruct (tm_repeat tm); injection Hstep as <-.
        * apply (empty_runCallback (tm_cb tm) (set_now t s)); exact IH.
        * apply (empty_runCallback (tm_cb tm) (unregister id (set_now t s)));
            exact IH. }
  destruct HP as [Hf Hi].
  split; [exact Hf | split; [exact Hi |]].
  split; [apply busy_nextSlide, Hf | split; [apply busy_prevSlide, Hf |]].
  rewrite completion_past_end by (rewrite Hi; reflexivity).
  destruct (instant_render (currentIndex s - len []) s) as (_ & -> & _ & _ & ->).
  split; reflexivity.
Qed.

(** ** The loader's string operations *)

Section Strings.
Import JsString.
Local Open Scope string_scope.

Lemma append_empty_r (s : string) : s ++ "" = s.
Proof. induction s as [| c s IH]; simpl; [| rewrite IH]; reflexivity. Qed.

Lemma append_assoc (a b c : string) : (a ++ b) ++ c = a ++ (b ++ c).
Proof. induction a as [| x a IH]; simpl; [| rewrite IH]; reflexivity. Qed.

Lemma includes_cons_false sub c r :
  includes sub (String c r) = false ->
  prefix sub (String c r) = false /\ includes sub r = false.
Proof. simpl; intros H; apply orb_false_iff in H; exact H. Qed.

Lemma prefix_empty (s : string) : prefix "" s = true.
Proof. destruct s; reflexivity. Qed.

Lemma prefix_cons a s1 b s2 :
  prefix (String a s1) (String b s2) =
  if Ascii.eqb a b then prefix s1 s2 else false.
Proof.
  cbn [prefix]; destruct (ascii_dec a b) as [<- | Hne].
  - rewrite Ascii.eqb_refl; reflexivity.
  - apply Ascii.eqb_neq in Hne; rewrite Hne; reflexivity.
Qed.

Lemma no_dash_head c r : includes "-" (String c r) = false -> c <> "-"%char.
Proof.
  intros H; apply includes_cons_false in H; destruct H as [H _].
  rewrite prefix_cons, prefix_empty in H.
  destruct (Ascii.eqb_spec "-" c); [discriminate | congruence].
Qed.

Lemma no_separator_here c r :
  c <> "-"%char -> includes "-" r = false ->
  prefix " - " (String c r) = false.
Proof.
  intros Hc Hr; rewrite prefix_cons.
  destruct (Ascii.eqb_spec " " c) as [<- |]; [| reflexivity].
  destruct r as [| c' r']; [reflexivity |].
  pose proof (no_dash_head c' r' Hr) as Hc'.
  rewrite prefix_cons; destruct (Ascii.eqb_spec "-" c'); [congruence | reflexivity].
Qed.

(** A string without the separator is one piece. *)
Lemma split_from_no_separator s : forall cur,
  includes " - " s = false -> split_from " - " s 0 cur = [cur ++ s].
Proof.
  induction s as [| c r IH]; intros cur H.
  - simpl; rewrite append_empty_r; reflexivity.
  - apply includes_cons_false in H; destruct H as [Hp Hr].
    cbn [split_from]; rewrite Hp, (IH _ Hr), append_assoc; reflexivity.
Qed.

Lemma no_dash_no_separator s :
  includes "-" s = false -> includes " - " s = false.
Proof.
  induction s as [| c r IH]; intros H; [reflexivity |].
  pose proof (no_dash_head c r H) as Hc.
  apply includes_cons_false in H; destruct H as [_ Hr].
  cbn [includes]; rewrite (IH Hr), orb_false_r.
  apply no_separator_here; assumption.
Qed.

(** The first piece ends at the first separator when no dash comes
    before it. *)
Lemma split_from_first a rest : forall cur,
  includes "-" a = false ->
  split_from " - " (a ++ " - " ++ rest) 0 cur =
  (cur ++ a) :: split_from " - " rest 0 "".
Proof.
  induction a as [| c a IH]; intros cur H.
  - rewrite append_empty_r; destruct rest; reflexivity.
  - pose proof (no_dash_head c a H) as Hc.
    apply includes_cons_false in H; destruct H as [_ Hr].
    assert (Hp : prefix " - " (String c (a ++ " - " ++ rest)) = false).
    { rewrite prefix_cons.
      destruct (Ascii.eqb_spec " " c) as [<- |]; [| reflexivity].
      destruct a as [| c' a']; [reflexivity |].
      pose proof (no_dash_head c' a' Hr) as Hc'.
      change (String c' a' ++ " - " ++ rest)
        with (String c' (a' ++ " - " ++ rest)).
      rewrite prefix_cons.
      destruct (Ascii.eqb_spec "-" c'); [congruence | reflexivity]. }
    change ((String c a ++ " - " ++ rest)) with (String c (a ++ " - " ++ rest)).
    cbn [split_from]; rewrite Hp, (IH _ Hr), append_assoc; reflexivity.
Qed.

Lemma split_two a b :
  includes "-" a = false -> includes "-" b = false ->
  split " - " (a ++ " - " ++ b) = [a; b].
Proof.
  intros Ha Hb; unfold split.
  rewrite split_from_first by exact Ha.
  rewrite split_from_no_separator by (apply no_dash_no_separator, Hb).
  reflexivity.
Qed.

Lemma split_first a rest :
  includes "-" a = false ->
  nth_error (split " - " (a ++ " - " ++ rest)) 0 = Some a.
Proof. intros Ha; unfold split; rewrite split_from_first by exact Ha; reflexivity. Qed.

Lemma replace_non_digits_digits s :
  forall c, In c (list_ascii_of_string (replace_non_digits s)) ->
            is_digit c = true.
Proof.
  induction s as [| x s IH]; simpl; [tauto |].
  destruct (is_digit x) eqn:E; simpl; [| exact IH].
  intros c [<- | Hin]; [exact E | exact (IH c Hin)].
Qed.

End Strings.

(** ** Business hours *)

Section BusinessHours.
Import JsString BusinessInfo.
Local Open Scope string_scope.

Lemma fold_appendDay hours l : forall kids,
  fold_left (appendDay hours) l kids =
  (kids ++ map (fun day => hourItem (snd day) (show (hours (fst day))))
               (filter (fun day => truthy (hours (fst day))) l))%list.
Proof.
  induction l as [| day l IH]; intros kids; simpl.
  - rewrite app_nil_r; reflexivity.
  - rewrite IH; unfold appendDay.
    destruct (truthy (hours (fst day))); simpl;
      [rewrite <- app_assoc |]; reflexivity.
Qed.

(** X12.  In the detailed format [updateBusinessHours] throws the old
    content of the hours element away and writes one row for each of
    Monday to Sunday and Emergency, in this order, that has a text which
    is not empty; a day without one has no row.  There are at most eight
    rows and the class list is untouched. *)
Theorem hours_rows_follow_the_week (hours : Hours) (el : HoursElement) :
  contains (hours_classList el) "contact-hours-simple" = false ->
  exists el',
    updateBusinessHours hours (Some el) = Some el' /\
    hours_classList el' = hours_classList el /\
    hours_children el' =
      map (fun day => hourItem (snd day) (show (hours (fst day))))
          (filter (fun day => truthy (hours (fst day)))
                  (days ++ [("emergency", "Emergency")])%list) /\
    (List.length (hours_children el') <= 8)%nat.
Proof.
  intros Hsimple; unfold updateBusinessHours; rewrite Hsimple.
  eexists; split; [reflexivity | split; [reflexivity |]].
  assert (Hkids :
    (if truthy (hours "emergency")
     then (fold_left (appendDay hours) days [] ++
           [hourItem "Emergency" (show (hours "emergency"))])%list
     else fold_left (appendDay hours) days []) =
    map (fun day => hourItem (snd day) (show (hours (fst day))))
        (filter (fun day => truthy (hours (fst day)))
                (days ++ [("emergency", "Emergency")])%list)).
  { rewrite filter_app, map_app, fold_appendDay; simpl app.
    cbn [filter fst snd].
    destruct (truthy (hours "emergency")); simpl;
      [| rewrite app_nil_r]; reflexivity. }
  cbn [hours_children]; rewrite Hkids; split; [reflexivity |].
  rewrite length_map.
  etransitivity; [apply filter_length_le | apply Nat.le_refl].
Qed.

(** X13.  In the simple format only Monday and Saturday count.  When
    Monday's text is [a - b] and Saturday's is [c - d], with no dash in
    [a], [c] and [d], the hours element shows
    [Mon-Sat a - d<br>Sun Closed], whatever the other days, Sunday
    included, say. *)
Theorem simple_hours_use_monday_and_saturday
        (hours : Hours) (el : HoursElement) (a b c d : string) :
  contains (hours_classList el) "contact-hours-simple" = true ->
  hours "monday" = Some (a ++ " - " ++ b) ->
  hours "saturday" = Some (c ++ " - " ++ d) ->
  includes "-" a = false -> includes "-" c = false ->
  includes "-" d = false ->
  updateBusinessHours hours (Some el) =
  Some (mkHoursElement (hours_classList el)
          [Markup ("Mon-Sat " ++ a ++ " - " ++ d ++ "<br>Sun Closed")]).
Proof.
  intros Hsimple Hmon Hsat Ha Hc Hd.
  unfold updateBusinessHours; rewrite Hsimple, Hmon, Hsat.
  assert (Ht : forall x y, truthy (Some (x ++ " - " ++ y)) = true)
    by (intros [| ? ?] y; reflexivity).
  rewrite !Ht; cbn [andb show].
  rewrite (split_first a b Ha), (split_two c d Hc Hd); reflexivity.
Qed.

(** X14.  In the simple format, when Monday or Saturday has no text the
    hours element is left as it was; and when both have one but
    Saturday's holds no [ - ] separator, the closing time reads
    [undefined]. *)
Theorem simple_hours_edge_cases (hours : Hours) (el : HoursElement) :
  contains (hours_classList el) "contact-hours-simple" = true ->
  (truthy (hours "monday") && truthy (hours "saturday") = false ->
   updateBusinessHours hours (Some el) = Some el) /\
  (truthy (hours "monday") = true -> truthy (hours "saturday") = true ->
   includes " - " (show (hours "saturday")) = false ->
   updateBusinessHours hours (Some el) =
   Some (mkHoursElement (hours_classList el)
           [Markup ("Mon-Sat "
                    ++ show (nth_error (split " - " (show (hours "monday"))) 0)
                    ++ " - undefined<br>Sun Closed")])).
Proof.
  intros Hsimple; unfold updateBusinessHours; rewrite Hsimple; split.
  - intros ->; reflexivity.
  - intros -> -> Hsep; cbn [andb].
    unfold split at 2; rewrite split_from_no_separator by exact Hsep.
    reflexivity.
Qed.

End BusinessHours.

(** ** Phone numbers, service areas, contact details *)

Section PageUpdates.
Import JsString BusinessInfo.
Local Open Scope string_scope.

Lemma placeholder_decides currentText :
  isPhonePlaceholder currentText && negb (isActionButton currentText) =
  isPhonePlaceholder currentText.
Proof.
  unfold isActionButton; destruct (isPhonePlaceholder currentText); reflexivity.
Qed.

(** X10.  What [updatePhoneNumbers] does to one element.  The text
    becomes the phone number exactly when the trimmed text is a
    placeholder (it matches the pattern or holds [000-0000]); the test for
    the words call, phone and contact never changes this, so a text such
    as [Call (970) 000-0000] is replaced as a whole.  Only an [A] element
    gets a link, [tel:] followed by the digits of the number and nothing
    else (a leading [+] is lost); the tag is untouched. *)
Theorem phone_element_update (phoneNumber : string) (element : PhoneElement) :
  let element' := updatePhoneElement phoneNumber element in
  tagName element' = tagName element /\
  textContent element' =
    (if isPhonePlaceholder (trim (textContent element))
     then phoneNumber else textContent element) /\
  href element' =
    (if String.eqb (tagName element) "A"
     then Some ("tel:" ++ replace_non_digits phoneNumber)
     else href element) /\
  (forall c, In c (list_ascii_of_string (replace_non_digits phoneNumber)) ->
             is_digit c = true) /\
  isPhonePlaceholder (trim "Call (970) 000-0000") = true /\
  replace_non_digits "+1 (970) 555-0134" = "19705550134".
Proof.
  cbv zeta; unfold updatePhoneElement.
  destruct (String.eqb (tagName element) "A"); cbn [textContent tagName href];
    rewrite placeholder_decides;
    destruct (isPhonePlaceholder (trim (textContent element)));
    cbn [textContent tagName href];
    repeat split; try reflexivity; apply replace_non_digits_digits.
Qed.

Lemma updatePhoneNumbers_again phoneNumber phoneElements :
  updatePhoneNumbers phoneNumber (updatePhoneNumbers phoneNumber phoneElements)
  = updatePhoneNumbers phoneNumber phoneElements.
Proof.
  unfold updatePhoneNumbers.
  rewrite map_map; apply map_ext; intros element.
  unfold updatePhoneElement.
  destruct (String.eqb (tagName element) "A") eqn:Etag;
    cbn [textContent tagName href]; rewrite !placeholder_decides;
    destruct (isPhonePlaceholder (trim (textContent element))) eqn:Eph;
    cbn [textContent tagName href]; rewrite ?Etag;
    cbn [textContent tagName href]; rewrite ?placeholder_decides, ?Eph;
    try reflexivity;
    destruct (isPhonePlaceholder (trim phoneNumber)); reflexivity.
Qed.

(** X11.  [updatePhoneNumbers] can be run again: a second run with the
    same number changes nothing, whether or not the number itself looks
    like a placeholder. *)
Theorem phone_update_idempotent (phoneNumber : string)
        (phoneElements : list PhoneElement) :
  updatePhoneNumbers phoneNumber (updatePhoneNumbers phoneNumber phoneElements)
  = updatePhoneNumbers phoneNumber phoneElements /\
  List.length (updatePhoneNumbers phoneNumber phoneElements)
  = List.length phoneElements.
Proof.
  split; [apply updatePhoneNumbers_again | apply length_map].
Qed.

Lemma fold_areaItem isFooter serviceAreas : forall kids,
  fold_left (fun kids area => kids ++ [areaItem isFooter area])%list
            serviceAreas kids =
  (kids ++ map (areaItem isFooter) serviceAreas)%list.
Proof.
  induction serviceAreas as [| area l IH]; intros kids; simpl.
  - rewrite app_nil_r; reflexivity.
  - rewrite IH, <- app_assoc; reflexivity.
Qed.

Lemma updateServiceArea_map serviceAreas serviceAreaElements :
  updateServiceArea serviceAreas serviceAreaElements =
  map (fun el =>
         mkAreaElement
           (area_classList el)
           (map (areaItem (contains (area_classList el) "footer-service-areas"))
                serviceAreas))
      serviceAreaElements.
Proof.
  destruct serviceAreaElements as [| el els]; [reflexivity |].
  unfold updateServiceArea; apply map_ext; intros x.
  unfold updateServiceAreaElement; rewrite fold_areaItem; reflexivity.
Qed.

Lemma updateServiceArea_again serviceAreas serviceAreaElements :
  updateServiceArea serviceAreas
    (updateServiceArea serviceAreas serviceAreaElements) =
  updateServiceArea serviceAreas serviceAreaElements.
Proof.
  rewrite !updateServiceArea_map, map_map; apply map_ext; intros el;
    reflexivity.
Qed.

(** X16.  [updateServiceArea] gives every service area element one item
    per area, in the order of the list, whatever it held before: a [span]
    of class [service-area-item] with the area as text, wrapped in an
    [li] when the element has the class [footer-service-areas].  The class
    list is kept, and a second run with the same list changes nothing. *)
Theorem service_area_update (serviceAreas : list string)
        (serviceAreaElements : list AreaElement) :
  updateServiceArea serviceAreas serviceAreaElements =
    map (fun el =>
           mkAreaElement
             (area_classList el)
             (map (areaItem (contains (area_classList el) "footer-service-areas"))
                  serviceAreas))
        serviceAreaElements /\
  updateServiceArea serviceAreas
    (updateServiceArea serviceAreas serviceAreaElements) =
  updateServiceArea serviceAreas serviceAreaElements.
Proof.
  split; [apply updateServiceArea_map | apply updateServiceArea_again].
Qed.



End PageUpdates.

(** ** The loader as a whole *)

Section Loader.
Import JsString BusinessInfo.
Local Open Scope string_scope.

Lemma updateEmail_again info e :
  updateEmail info (updateEmail info e) = updateEmail info e.
Proof.
  unfold updateEmail; destruct e as [el |]; [| reflexivity].
  destruct (contact info) as [c |]; [| reflexivity].
  destruct (email c) as [m |]; [| reflexivity].
  destruct (emailLink el) eqn:El; [| rewrite El; reflexivity].
  destruct (truthy (email_primary m)) eqn:Et; cbn [emailLink];
    rewrite ?El, ?Et; reflexivity.
Qed.

Lemma updateAddress_again info e :
  updateAddress info (updateAddress info e) = updateAddress info e.
Proof.
  unfold updateAddress; destruct e as [el |]; [| reflexivity].
  destruct (contact info) as [c |]; [| reflexivity].
  destruct (address c) as [a |]; [| reflexivity].
  destruct (addressText el) eqn:El; cbn [addressText]; rewrite ?El; reflexivity.
Qed.

Lemma updateBusinessHours_again h e :
  updateBusinessHours h (updateBusinessHours h e) = updateBusinessHours h e.
Proof.
  unfold updateBusinessHours; destruct e as [el |]; [| reflexivity].
  destruct (contains (hours_classList el) "contact-hours-simple") eqn:Es.
  - destruct (truthy (h "monday") && truthy (h "saturday")) eqn:Et;
      cbn [hours_classList]; rewrite Es, ?Et; reflexivity.
  - cbn [hours_classList]; rewrite Es; reflexivity.
Qed.


(** X18.  Loading the same response a second time leaves every element
    of the page as the first load left it. *)
Theorem loader_can_run_again (response : Fetched) (p : Page) :
  let p1 := loadBusinessInfo response p in
  let p2 := loadBusinessInfo response p1 in
  phoneElements p2 = phoneElements p1 /\
  serviceAreaElements p2 = serviceAreaElements p1 /\
  emailElement p2 = emailElement p1 /\
  addressElement p2 = addressElement p1 /\
  hoursElement p2 = hoursElement p1.
Proof.
  cbv zeta; unfold loadBusinessInfo.
  destruct response as [| [|] [info |]]; try (repeat split; reflexivity).
  destruct (contact info) as [c |]; [| repeat split; reflexivity].
  destruct (phone c) as [ph |]; [| repeat split; reflexivity].
  destruct (truthy (phone_primary ph)), (service info) as [sv |];
    try destruct (serviceArea sv) as [areas |];
    try destruct (Nat.ltb 0 (List.length areas));
    try destruct (hours sv);
    cbn [console phoneElements serviceAreaElements emailElement
         addressElement hoursElement updateContactInfo];
    rewrite ?updatePhoneNumbers_again, ?updateServiceArea_again,
            ?updateEmail_again, ?updateAddress_again,
            ?updateBusinessHours_again;
    repeat split; reflexivity.
Qed.

End Loader.

(** ** The mobile menu *)

Section Menu.
Import MobileMenu.
Local Open Scope string_scope.

Lemma toggle_membership token classList c :
  In c (classList_toggle token classList) <->
  (if String.eqb token c
   then ~ In token classList
   else In c classList).
Proof.
  unfold classList_toggle.
  destruct (existsb (String.eqb token) classList) eqn:Ex.
  - apply existsb_exists in Ex; destruct Ex as (x & Hx & Ex).
    apply String.eqb_eq in Ex; subst x.
    rewrite filter_In.
    destruct (String.eqb_spec token c) as [<- | Hne]; simpl.
    + split; [intros [_ H]; discriminate | intros H; contradiction].
    + split; [intros [H _]; exact H | intros H; split; [exact H | reflexivity]].
  - assert (Hnot : ~ In token classList).
    { intros Hin. assert (Ht : existsb (String.eqb token) classList = true).
      { apply existsb_exists; exists token; split;
          [exact Hin | apply String.eqb_refl]. }
      congruence. }
    rewrite in_app_iff; simpl.
    destruct (String.eqb_spec token c) as [<- | Hne]; [tauto |].
    split; [intros [H | [H | []]]; [exact H | congruence] | tauto].
Qed.

Lemma iter_toggle_membership n token classList c :
  In c (Nat.iter n (classList_toggle token) classList) <->
  (if String.eqb token c && Nat.odd n
   then ~ In token classList
   else In c classList).
Proof.
  induction n as [| n IH]; [rewrite andb_false_r; reflexivity |].
  rewrite Nat.iter_succ, toggle_membership, Nat.odd_succ, <- Nat.negb_odd.
  destruct (String.eqb_spec token c) as [E | Hne]; cbn [andb].
  - subst c; rewrite IH, ?String.eqb_refl; cbn [andb].
    destruct (Nat.odd n), (in_dec string_dec token classList);
      cbn [negb]; tauto.
  - rewrite IH.
    destruct (String.eqb_spec token c); [congruence | reflexivity].
Qed.

(** X19.  After [initMobileMenu] on a page that has the toggle, with no
    listener on it yet, and the header, each click flips the class
    [nav-open] of the header and touches no other class: after [n] clicks
    the header has [nav-open] exactly when it had it at the start and [n]
    is even, or had not and [n] is odd.  When the toggle or the header is
    missing, [initMobileMenu] does nothing. *)
Theorem menu_clicks_flip_nav_open (classList : list string) (n : nat) :
  let m := initMobileMenu (mkMenu (Some 0%nat) (Some classList)) in
  (exists classList',
     header (Nat.iter n click m) = Some classList' /\
     (In "nav-open" classList' <->
      (if Nat.odd n then ~ In "nav-open" classList
       else In "nav-open" classList)) /\
     (forall c, c <> "nav-open" -> (In c classList' <-> In c classList))) /\
  (forall m', toggle m' = None \/ header m' = None -> initMobileMenu m' = m').
Proof.
  cbv zeta; split.
  - assert (Hiter : forall k,
              Nat.iter k click (initMobileMenu (mkMenu (Some 0%nat) (Some classList)))
              = mkMenu (Some 1%nat)
                       (Some (Nat.iter k (classList_toggle "nav-open") classList))).
    { induction k as [| k IH]; [reflexivity |].
      rewrite Nat.iter_succ, IH; reflexivity. }
    rewrite Hiter; eexists; split; [reflexivity | split].
    + rewrite iter_toggle_membership, String.eqb_refl; reflexivity.
    + intros c Hc; rewrite iter_toggle_membership.
      destruct (String.eqb_spec "nav-open" c); [congruence | reflexivity].
  - intros m' [H | H]; unfold initMobileMenu; rewrite H;
      [| destruct (toggle m')]; reflexivity.
Qed.

End Menu.

(** ** Further statements at the site's page *)

Lemma offset_follows_index_witness :
  exists s0,
    initGallerySlideshow siteGalleryImages fullPage pageLoad = Started s0 /\
    1 <= len siteGalleryImages /\
    Reachable siteGalleryImages s0 /\
    style_transform (track s0) = translateX_css (- (currentIndex s0 * 100)) /\
    0 <= currentIndex s0 < 3 * len siteGalleryImages.
Proof.
  with_loaded ltac:(fun s0 => exists s0).
  assert (Hlen : 1 <= len siteGalleryImages) by (rewrite site_len; lia).
  split; [vm_compute; reflexivity | split; [exact Hlen |]].
  match goal with
  | |- Reachable _ ?s0 /\ _ =>
      assert (HR : Reachable siteGalleryImages s0)
        by (apply reach_site_loaded; vm_compute; reflexivity);
      split; [exact HR |];
      destruct (offset_follows_index siteGalleryImages s0 Hlen HR)
        as (_ & Hoff & Hrange & _);
      split; [exact Hoff | exact Hrange]
  end.
Defined.


Lemma timer_table_is_bounded_witness :
  exists s0,
    initGallerySlideshow siteGalleryImages fullPage pageLoad = Started s0 /\
    1 <= len siteGalleryImages /\
    Reachable siteGalleryImages s0 /\
    List.length (timers s0) = 2%nat /\
    NoDup (map tm_id (timers s0)).
Proof.
  with_loaded ltac:(fun s0 => exists s0).
  assert (Hlen : 1 <= len siteGalleryImages) by (rewrite site_len; lia).
  split; [vm_compute; reflexivity | split; [exact Hlen |]].
  match goal with
  | |- Reachable _ ?s0 /\ _ =>
      assert (HR : Reachable siteGalleryImages s0)
        by (apply reach_site_loaded; vm_compute; reflexivity);
      split; [exact HR |];
      destruct (timer_table_is_bounded siteGalleryImages Hlen s0 HR)
        as (Hn & _ & _ & Hnd);
      split; [exact Hn | exact Hnd]
  end.
Defined.

Lemma move_in_flight_is_not_disturbed_witness :
  exists s0 s1,
    initGallerySlideshow siteGalleryImages fullPage pageLoad = Started s0 /\
    1 <= len siteGalleryImages /\
    Reachable siteGalleryImages s0 /\
    isTransitioning s0 = true /\
    find is_completion (timers s0) = Some (c_timer 1 1200) /\
    run siteGalleryImages s0 [Click BtnNext 300; Fire 3 5300; Click BtnPrev 5400]
      = Some s1 /\
    currentIndex s1 = currentIndex s0 /\ isTransitioning s1 = true.
Proof.
  with_loaded ltac:(fun s0 =>
    exists s0;
    let r := eval vm_compute in
               (run siteGalleryImages s0
                    [Click BtnNext 300; Fire 3 5300; Click BtnPrev 5400]) in
    match r with Some ?s1 => exists s1 end).
  assert (Hlen : 1 <= len siteGalleryImages) by (rewrite site_len; lia).
  split; [vm_compute; reflexivity | split; [exact Hlen |]].
  match goal with
  | |- Reachable _ ?s0 /\ _ /\ _ /\ run _ _ ?evs = Some ?s1 /\ _ =>
      assert (HR : Reachable siteGalleryImages s0)
        by (apply reach_site_loaded; vm_compute; reflexivity);
      assert (Hfc : find is_completion (timers s0) = Some (c_timer 1 1200))
        by (vm_compute; reflexivity);
      assert (Hrun : run siteGalleryImages s0 evs = Some s1)
        by (vm_compute; reflexivity);
      assert (Hev : forall t, ~ In (Fire (tm_id (c_timer 1 1200)) t) evs)
        by (intros t [H | [H | [H | []]]]; discriminate);
      split; [exact HR | split; [reflexivity | split; [exact Hfc |]]];
      split; [exact Hrun |];
      destruct (move_in_flight_is_not_disturbed
                  siteGalleryImages Hlen s0 (c_timer 1 1200) evs s1
                  HR eq_refl Hfc Hrun Hev) as (Hi & Hf & _);
      split; [exact Hi | exact Hf]
  end.
Defined.

Lemma forward_moves_cycle_witness :
  exists s0 s5 s',
    initGallerySlideshow siteGalleryImages fullPage pageLoad = Started s0 /\
    step siteGalleryImages s0 (Fire 1 1200) = Some s5 /\
    1 <= len siteGalleryImages /\
    Reachable siteGalleryImages s5 /\
    isTransitioning s5 = false /\
    (2 <= 2)%nat /\
    advances siteGalleryImages 2 5 s5 = Some s' /\
    currentIndex s' = currentIndex s5.
Proof.
  with_settled ltac:(fun s0 s5 =>
    exists s0, s5;
    let r := eval vm_compute in (advances siteGalleryImages 2 5 s5) in
    match r with Some ?s' => exists s' end).
  assert (Hlen : 1 <= len siteGalleryImages) by (rewrite site_len; lia).
  split; [vm_compute; reflexivity | split; [vm_compute; reflexivity |]].
  split; [exact Hlen |].
  match goal with
  | |- Reachable _ ?s5 /\ _ /\ _ /\ advances _ _ _ _ = Some ?s' /\ _ =>
      assert (HR : Reachable siteGalleryImages s5)
        by (eapply reach_site_settled; vm_compute; reflexivity);
      assert (Hadv : advances siteGalleryImages 2 5 s5 = Some s')
        by (vm_compute; reflexivity);
      split; [exact HR | split; [reflexivity | split; [lia |]]];
      split; [exact Hadv |];
      destruct (forward_moves_cycle siteGalleryImages Hlen s5 2 HR eq_refl
                                    (le_n 2)) as (_ & x & Hx & Hi);
      change (List.length siteGalleryImages) with 5%nat in Hx;
      rewrite Hadv in Hx; injection Hx as <-; exact Hi
  end.
Defined.

Lemma every_move_settles_witness :
  exists s0,
    initGallerySlideshow siteGalleryImages fullPage pageLoad = Started s0 /\
    1 <= len siteGalleryImages /\
    Reachable siteGalleryImages s0 /\
    (2 <= 2)%nat /\
    exists s',
      settle siteGalleryImages 2 s0 = Some s' /\
      isTransitioning s' = false /\
      len siteGalleryImages <= currentIndex s' < 2 * len siteGalleryImages.
Proof.
  with_loaded ltac:(fun s0 => exists s0).
  assert (Hlen : 1 <= len siteGalleryImages) by (rewrite site_len; lia).
  split; [vm_compute; reflexivity | split; [exact Hlen |]].
  match goal with
  | |- Reachable _ ?s0 /\ _ =>
      assert (HR : Reachable siteGalleryImages s0)
        by (apply reach_site_loaded; vm_compute; reflexivity);
      split; [exact HR | split; [lia |]];
      destruct (every_move_settles siteGalleryImages Hlen s0 2 HR (le_n 2))
        as (s' & Hs & _ & Hf & _ & Hr);
      exists s'; split; [exact Hs | split; [exact Hf | exact Hr]]
  end.
Defined.

Lemma empty_gallery_never_settles_witness :
  exists s0,
    initGallerySlideshow [] fullPage pageLoad = Started s0 /\
    Reachable [] s0 /\
    isTransitioning s0 = true /\ currentIndex s0 = 0 /\ nextSlide s0 = s0.
Proof.
  let r := eval vm_compute in (initGallerySlideshow [] fullPage pageLoad) in
  match r with Started ?s0 => exists s0 end.
  split; [vm_compute; reflexivity |].
  match goal with
  | |- Reachable _ ?s0 /\ _ =>
      assert (HR : Reachable [] s0)
        by (apply (reach_init [] fullPage pageLoad s0 pristine_fullPage);
            vm_compute; reflexivity);
      split; [exact HR |];
      destruct (empty_gallery_never_settles s0 HR) as (Hf & Hi & Hn & _);
      split; [exact Hf | split; [exact Hi | exact Hn]]
  end.
Defined.

Lemma one_event_one_step_witness :
  exists s0 s5 s6,
    initGallerySlideshow siteGalleryImages fullPage pageLoad = Started s0 /\
    step siteGalleryImages s0 (Fire 1 1200) = Some s5 /\
    1 <= len siteGalleryImages /\
    Reachable siteGalleryImages s5 /\
    step siteGalleryImages s5 (Click BtnNext 2000) = Some s6 /\
    currentIndex s6 = currentIndex s5 + 1 /\ isTransitioning s6 = true.
Proof.
  with_settled ltac:(fun s0 s5 =>
    exists s0, s5;
    let r := eval vm_compute in (step siteGalleryImages s5 (Click BtnNext 2000)) in
    match r with Some ?s6 => exists s6 end).
  assert (Hlen : 1 <= len siteGalleryImages) by (rewrite site_len; lia).
  split; [vm_compute; reflexivity | split; [vm_compute; reflexivity |]].
  split; [exact Hlen |].
  match goal with
  | |- Reachable _ ?s5 /\ step _ _ _ = Some ?s6 /\ _ =>
      assert (HR : Reachable siteGalleryImages s5)
        by (eapply reach_site_settled; vm_compute; reflexivity);
      assert (Hstep : step siteGalleryImages s5 (Click BtnNext 2000) = Some s6)
        by (vm_compute; reflexivity);
      split; [exact HR | split; [exact Hstep |]];
      exact (proj1 (one_event_one_step siteGalleryImages Hlen s5 2000 s6 HR)
                   Hstep)
  end.
Defined.

Lemma hours_rows_follow_the_week_witness :
  let hours := fun key : string =>
                 if String.eqb key "monday" then Some "8am - 5pm"%string
                 else if String.eqb key "sunday" then Some ""%string
                 else if String.eqb key "emergency" then Some "24/7"%string
                 else None in
  let el := BusinessInfo.mkHoursElement ["card"%string] [BusinessInfo.Markup "old"] in
  BusinessInfo.contains (BusinessInfo.hours_classList el) "contact-hours-simple" = false /\
  BusinessInfo.updateBusinessHours hours (Some el) =
  Some (BusinessInfo.mkHoursElement
          ["card"%string]
          [BusinessInfo.hourItem "Monday" "8am - 5pm";
           BusinessInfo.hourItem "Emergency" "24/7"]).
Proof.
  intros hours el; split; [reflexivity |].
  destruct (hours_rows_follow_the_week hours el eq_refl)
    as (el' & -> & Hc & Hk & _).
  destruct el' as [classList kids]; simpl in Hc, Hk; subst classList kids.
  reflexivity.
Defined.

Lemma simple_hours_use_monday_and_saturday_witness :
  let hours := fun key : string =>
                 if String.eqb key "monday" then Some "8am - 5pm"%string
                 else if String.eqb key "saturday" then Some "9am - 1pm"%string
                 else if String.eqb key "sunday" then Some "10am - 2pm"%string
                 else None in
  let el := BusinessInfo.mkHoursElement ["contact-hours-simple"%string] [] in
  BusinessInfo.updateBusinessHours hours (Some el) =
  Some (BusinessInfo.mkHoursElement
          ["contact-hours-simple"%string]
          [BusinessInfo.Markup "Mon-Sat 8am - 1pm<br>Sun Closed"]).
Proof.
  intros hours el.
  exact (simple_hours_use_monday_and_saturday
           hours el "8am" "5pm" "9am" "1pm"
           eq_refl eq_refl eq_refl eq_refl eq_refl eq_refl).
Defined.

Lemma simple_hours_edge_cases_witness :
  let hours := fun key : string =>
                 if String.eqb key "monday" then Some "8am - 5pm"%string
                 else if String.eqb key "saturday" then Some "Closed"%string
                 else None in
  let el := BusinessInfo.mkHoursElement ["contact-hours-simple"%string] [] in
  BusinessInfo.contains (BusinessInfo.hours_classList el) "contact-hours-simple" = true /\
  BusinessInfo.updateBusinessHours hours (Some el) =
  Some (BusinessInfo.mkHoursElement
          ["contact-hours-simple"%string]
          [BusinessInfo.Markup "Mon-Sat 8am - undefined<br>Sun Closed"]).
Proof.
  intros hours el; split; [reflexivity |].
  exact (proj2 (simple_hours_edge_cases hours el eq_refl)
               eq_refl eq_refl eq_refl).
Defined.
